(** * Res-Q call interface: the voice session pipeline of the React client

    A shallow embedding of
    [hackumass-frontend/src/components/CallInterfaceClean.tsx] (with the
    [handleEndCall] callback of [App]) and the properties its design
    document states about it.

    The component is event driven: timers, button clicks, recorder events and
    settled promises each run a piece of code to completion on the single
    JavaScript thread.  Every [async] function is therefore cut at its
    [await]s: the part before an [await] registers a pending task, and the
    part after it runs when the environment settles that task.  The
    environment (network, microphone, audio output, clock) is not modelled;
    it shows up as the sequence of events fed to [step].  The state of the
    recorder held in the ref belongs to the environment as well: the
    component reads it (line 164), and the browser may turn it inactive by
    itself. *)

From Stdlib Require Import ZArith List String Ascii Bool Lia Strings.Byte.
Import ListNotations.
Open Scope string_scope.
Open Scope list_scope.
#[local] Set Warnings "-register-all".

(* ================================================================== *)
(** ** JavaScript values *)

(** A JS number is kept abstract: the component only ever tests a number for
    truthiness or renders it with [String(...)], so a number is represented
    by these two observations. *)
Record jsnum := { num_truthy : bool; num_text : string }.

(** The values that flow through the component: what [JSON.parse] and
    [res.json()] can produce, plus [undefined] (a missing property). *)
Inductive jsval :=
| JUndef
| JNull
| JBool (b : bool)
| JNum (n : jsnum)
| JStr (s : string)
| JArr (elems : list jsval)
| JObj (fields : list (string * jsval)).

Definition nonempty (s : string) : bool :=
  match s with EmptyString => false | String _ _ => true end.

(** [Boolean(v)], the test behind [if (v)], [a || b] and [filter(Boolean)]. *)
Definition truthy (v : jsval) : bool :=
  match v with
  | JUndef | JNull => false
  | JBool b => b
  | JNum n => num_truthy n
  | JStr s => nonempty s
  | JArr _ | JObj _ => true
  end.

(** [a || b] on already evaluated operands. *)
Definition js_or (a b : jsval) : jsval := if truthy a then a else b.

Fixpoint assoc (k : string) (l : list (string * jsval)) : option jsval :=
  match l with
  | [] => None
  | (k', v) :: r => if String.eqb k k' then Some v else assoc k r
  end.

(** All the results of a list of conversions, unless one of them failed. *)
Fixpoint all_some {A} (l : list (option A)) : option (list A) :=
  match l with
  | [] => Some []
  | Some a :: r => option_map (cons a) (all_some r)
  | None :: _ => None
  end.

(** [String(v)], with [None] when the conversion throws a [TypeError].  A
    value read from JSON holds no function, so an object that has a property
    of its own named [toString] hides the inherited method behind something
    that cannot be called; the inherited [valueOf] then returns the object
    itself and the conversion gives up.  Any other object is rendered by
    [Object.prototype.toString].  An array is rendered by joining its
    elements with a comma, and fails when one of them does. *)
Fixpoint js_String (v : jsval) : option string :=
  match v with
  | JUndef => Some "undefined"
  | JNull => Some "null"
  | JBool true => Some "true"
  | JBool false => Some "false"
  | JNum n => Some (num_text n)
  | JStr s => Some s
  | JArr l =>
      option_map (String.concat ",")
        (all_some (map (fun x => match x with
                                 | JUndef | JNull => Some ""
                                 | _ => js_String x
                                 end) l))
  | JObj fs =>
      match assoc "toString" fs with
      | Some _ => None
      | None => Some "[object Object]"
      end
  end.

(** How [Array.prototype.join] renders one element. *)
Definition join_elem (x : jsval) : option string :=
  match x with
  | JUndef | JNull => Some ""
  | _ => js_String x
  end.

(** [l.join(sep)], with [None] when an element cannot be converted. *)
Definition js_join (sep : string) (l : list jsval) : option string :=
  option_map (String.concat sep) (all_some (map join_elem l)).

(** Property read [v.k] on a value that is neither [null] nor [undefined].
    Objects are given by their own properties; for the property names the
    component reads, primitives and arrays have none. *)
Definition own (v : jsval) (k : string) : jsval :=
  match v with
  | JObj fs => match assoc k fs with Some x => x | None => JUndef end
  | _ => JUndef
  end.

Definition nullish (v : jsval) : bool :=
  match v with JUndef | JNull => true | _ => false end.

(** Optional chaining [v?.k]. *)
Definition js_get_opt (v : jsval) (k : string) : jsval :=
  if nullish v then JUndef else own v k.

(* ================================================================== *)
(** ** Blobs, requests, responses *)

Definition blob := list byte.

Definition blob_size (b : blob) : nat := List.length b.

(** [new Blob(parts)]: the parts laid end to end. *)
Definition new_Blob (parts : list blob) : blob := List.concat parts.

Inductive method := GET | POST.

(** The single part of the [FormData] bodies the component builds:
    [fd.append(part_name, payload, filename)]. *)
Record form_file := { part_name : string; payload : blob; filename : string }.

Record request := {
  req_method : method;
  req_url : string;
  req_body : option form_file
}.

(** What a settled [fetch] gives: the status, and the outcome of
    [res.json()] ([None] when the body is not JSON and [json()] rejects). *)
Record http_response := { status : Z; body : option jsval }.

Definition res_ok (r : http_response) : bool :=
  ((200 <=? status r) && (status r <=? 299))%Z.

Inductive fetch_result :=
| NetworkError
| Resp (r : http_response).

(* ================================================================== *)
(** ** Component state, effects, pending work *)

Inductive exn :=
| TypeError
| SyntaxError
| FetchFailed
| Error (msg : string)
| MediaError
| PlayError.

Inductive level := LError | LWarn.

Inductive recorder_state := Inactive | Recording | Paused.

(** Everything the component does to the outside world, in order. *)
Inductive effect :=
| EFetch (r : request)
| EConsole (l : level) (msg : string)
| EPlay (url : string)
| EGetUserMedia
| ERecorderStart (timeslice : Z)
| ERecorderStop
| ESetResponse (s : string)
| ESetIsAISpeaking (b : bool)
| ESetIsRecording (b : bool)
| ESetIpLocation (v : jsval)
| ESetInterval (period : Z)
| EClearInterval
| ESetTimeout (id : nat) (delay : Z)
| EScrollTop
| EUncaught (e : exn).

(** The [await]s of the component: what a suspended function is waiting to
    resume as. *)
Inductive cont :=
| KPoll
| KLocation
| KHandleEnd
| KStartListening
| KGetUserMedia
| KChunkUpload
| KChunkPlay
| KFinalUpload
| KFinalPlay.

Record state := {
  (* useState *)
  isAISpeaking : bool;
  response : string;
  isRecording : bool;
  ipLocation : jsval;
  (* useRef; the recorder in [mediaRecorderRef] is given by its [state] *)
  mediaRecorderRef : option recorder_state;
  chunksRef : list blob;
  (* App: the call interface is mounted exactly while this holds *)
  isCallActive : bool;
  (* event loop *)
  interval : option Z;
  timeouts : list (nat * Z);
  tasks : list (nat * cont);
  next_id : nat;
  trace : list effect
}.

Definition initial : state := {|
  isAISpeaking := false;
  response := "";
  isRecording := false;
  ipLocation := JStr "Fetching location...";
  mediaRecorderRef := None;
  chunksRef := [];
  isCallActive := true;
  interval := None;
  timeouts := [];
  tasks := [];
  next_id := 0;
  trace := []
|}.

(* ================================================================== *)
(** ** A state-and-exception monad for handler bodies *)

Inductive result (A : Type) :=
| Ok (a : A)
| Throw (e : exn).
Arguments Ok {A} a.
Arguments Throw {A} e.

Definition M (A : Type) : Type := state -> result A * state.

Definition ret {A} (a : A) : M A := fun st => (Ok a, st).

Definition bind {A B} (m : M A) (f : A -> M B) : M B :=
  fun st =>
    match m st with
    | (Ok a, st') => f a st'
    | (Throw e, st') => (Throw e, st')
    end.

Definition throw {A} (e : exn) : M A := fun st => (Throw e, st).

(** [try { m } catch (e) { h e }]. *)
Definition try_catch {A} (m : M A) (h : exn -> M A) : M A :=
  fun st =>
    match m st with
    | (Ok a, st') => (Ok a, st')
    | (Throw e, st') => h e st'
    end.

(** [try { m } finally { f }]. *)
Definition try_finally {A} (m : M A) (f : M unit) : M A :=
  fun st =>
    match m st with
    | (r, st') =>
        match f st' with
        | (Ok _, st'') => (r, st'')
        | (Throw e, st'') => (Throw e, st'')
        end
    end.

Declare Scope js_scope.
Delimit Scope js_scope with js.
Notation "x <- m ;; k" := (bind m (fun x => k))
  (at level 61, m at next level, right associativity) : js_scope.
Notation "m ;; k" := (bind m (fun _ => k))
  (at level 61, right associativity) : js_scope.
Open Scope js_scope.

Definition gets {A} (f : state -> A) : M A := fun st => (Ok (f st), st).

Definition modify (f : state -> state) : M unit := fun st => (Ok tt, f st).


(* ------------------------------------------------------------------ *)
(** Field updates. *)

Definition with_isAISpeaking (x : bool) (s : state) : state :=
  {| isAISpeaking := x; response := response s; isRecording := isRecording s;
     ipLocation := ipLocation s; mediaRecorderRef := mediaRecorderRef s;
     chunksRef := chunksRef s; isCallActive := isCallActive s;
     interval := interval s; timeouts := timeouts s; tasks := tasks s;
     next_id := next_id s; trace := trace s |}.

Definition with_response (x : string) (s : state) : state :=
  {| isAISpeaking := isAISpeaking s; response := x; isRecording := isRecording s;
     ipLocation := ipLocation s; mediaRecorderRef := mediaRecorderRef s;
     chunksRef := chunksRef s; isCallActive := isCallActive s;
     interval := interval s; timeouts := timeouts s; tasks := tasks s;
     next_id := next_id s; trace := trace s |}.

Definition with_isRecording (x : bool) (s : state) : state :=
  {| isAISpeaking := isAISpeaking s; response := response s; isRecording := x;
     ipLocation := ipLocation s; mediaRecorderRef := mediaRecorderRef s;
     chunksRef := chunksRef s; isCallActive := isCallActive s;
     interval := interval s; timeouts := timeouts s; tasks := tasks s;
     next_id := next_id s; trace := trace s |}.

Definition with_ipLocation (x : jsval) (s : state) : state :=
  {| isAISpeaking := isAISpeaking s; response := response s;
     isRecording := isRecording s; ipLocation := x;
     mediaRecorderRef := mediaRecorderRef s;
     chunksRef := chunksRef s; isCallActive := isCallActive s;
     interval := interval s; timeouts := timeouts s; tasks := tasks s;
     next_id := next_id s; trace := trace s |}.

Definition with_mediaRecorderRef (x : option recorder_state) (s : state) : state :=
  {| isAISpeaking := isAISpeaking s; response := response s;
     isRecording := isRecording s; ipLocation := ipLocation s;
     mediaRecorderRef := x;
     chunksRef := chunksRef s; isCallActive := isCallActive s;
     interval := interval s; timeouts := timeouts s; tasks := tasks s;
     next_id := next_id s; trace := trace s |}.

Definition with_chunksRef (x : list blob) (s : state) : state :=
  {| isAISpeaking := isAISpeaking s; response := response s;
     isRecording := isRecording s; ipLocation := ipLocation s;
     mediaRecorderRef := mediaRecorderRef s;
     chunksRef := x; isCallActive := isCallActive s;
     interval := interval s; timeouts := timeouts s; tasks := tasks s;
     next_id := next_id s; trace := trace s |}.

Definition with_isCallActive (x : bool) (s : state) : state :=
  {| isAISpeaking := isAISpeaking s; response := response s;
     isRecording := isRecording s; ipLocation := ipLocation s;
     mediaRecorderRef := mediaRecorderRef s;
     chunksRef := chunksRef s; isCallActive := x;
     interval := interval s; timeouts := timeouts s; tasks := tasks s;
     next_id := next_id s; trace := trace s |}.

Definition with_interval (x : option Z) (s : state) : state :=
  {| isAISpeaking := isAISpeaking s; response := response s;
     isRecording := isRecording s; ipLocation := ipLocation s;
     mediaRecorderRef := mediaRecorderRef s;
     chunksRef := chunksRef s; isCallActive := isCallActive s;
     interval := x; timeouts := timeouts s; tasks := tasks s;
     next_id := next_id s; trace := trace s |}.

Definition with_timeouts (x : list (nat * Z)) (s : state) : state :=
  {| isAISpeaking := isAISpeaking s; response := response s;
     isRecording := isRecording s; ipLocation := ipLocation s;
     mediaRecorderRef := mediaRecorderRef s;
     chunksRef := chunksRef s; isCallActive := isCallActive s;
     interval := interval s; timeouts := x; tasks := tasks s;
     next_id := next_id s; trace := trace s |}.

Definition with_tasks (x : list (nat * cont)) (s : state) : state :=
  {| isAISpeaking := isAISpeaking s; response := response s;
     isRecording := isRecording s; ipLocation := ipLocation s;
     mediaRecorderRef := mediaRecorderRef s;
     chunksRef := chunksRef s; isCallActive := isCallActive s;
     interval := interval s; timeouts := timeouts s; tasks := x;
     next_id := next_id s; trace := trace s |}.

Definition with_next_id (x : nat) (s : state) : state :=
  {| isAISpeaking := isAISpeaking s; response := response s;
     isRecording := isRecording s; ipLocation := ipLocation s;
     mediaRecorderRef := mediaRecorderRef s;
     chunksRef := chunksRef s; isCallActive := isCallActive s;
     interval := interval s; timeouts := timeouts s; tasks := tasks s;
     next_id := x; trace := trace s |}.

Definition with_trace (x : list effect) (s : state) : state :=
  {| isAISpeaking := isAISpeaking s; response := response s;
     isRecording := isRecording s; ipLocation := ipLocation s;
     mediaRecorderRef := mediaRecorderRef s;
     chunksRef := chunksRef s; isCallActive := isCallActive s;
     interval := interval s; timeouts := timeouts s; tasks := tasks s;
     next_id := next_id s; trace := x |}.

(* ------------------------------------------------------------------ *)
(** Primitives of the runtime, as the handlers use them. *)

Definition emit (e : effect) : M unit :=
  modify (fun s => with_trace (trace s ++ [e]) s).

(** Suspend at an [await]: the rest of the function is registered under a
    fresh identifier and runs when the environment settles it. *)
Definition await (k : cont) : M unit :=
  modify (fun s => with_next_id (S (next_id s))
                     (with_tasks ((next_id s, k) :: tasks s) s)).

(** [await fetch(url, { method, body })], up to the suspension. *)
Definition fetch (m : method) (url : string) (b : option form_file)
    (k : cont) : M unit :=
  emit (EFetch {| req_method := m; req_url := url; req_body := b |}) ;;
  await k.

(** The value of [await fetch(...)] once settled: a rejected promise throws
    at the [await]. *)
Definition settled (r : fetch_result) : M http_response :=
  match r with
  | NetworkError => throw FetchFailed
  | Resp res => ret res
  end.

(** [await res.json()]. *)
Definition res_json (res : http_response) : M jsval :=
  match body res with
  | Some d => ret d
  | None => throw SyntaxError
  end.

(** Property read [v.k]: a [TypeError] on [null] and [undefined]. *)
Definition js_get (v : jsval) (k : string) : M jsval :=
  if nullish v then throw TypeError else ret (own v k).

(** [a || <m>] where the right operand is evaluated only when needed. *)
Definition orM (a : jsval) (m : M jsval) : M jsval :=
  if truthy a then ret a else m.

(** [String(v)] and [l.join(sep)] as expressions: a conversion that fails
    throws. *)
Definition StringM (v : jsval) : M string :=
  match js_String v with
  | Some s => ret s
  | None => throw TypeError
  end.

Definition joinM (sep : string) (l : list jsval) : M string :=
  match js_join sep l with
  | Some s => ret s
  | None => throw TypeError
  end.

Definition console (l : level) (msg : string) : M unit :=
  emit (EConsole l msg).

(** The [useState] setters.  React drops an update aimed at a component that
    is no longer mounted, so the call is always traced but only takes effect
    while the call interface is shown. *)
Definition setResponse (s : string) : M unit :=
  emit (ESetResponse s) ;;
  modify (fun st => if isCallActive st then with_response s st else st).

Definition setIsAISpeaking (b : bool) : M unit :=
  emit (ESetIsAISpeaking b) ;;
  modify (fun st => if isCallActive st then with_isAISpeaking b st else st).

Definition setIsRecording (b : bool) : M unit :=
  emit (ESetIsRecording b) ;;
  modify (fun st => if isCallActive st then with_isRecording b st else st).

Definition setIpLocation (v : jsval) : M unit :=
  emit (ESetIpLocation v) ;;
  modify (fun st => if isCallActive st then with_ipLocation v st else st).

(** [setTimeout(() => setIsAISpeaking(false), delay)]: the only callback the
    component ever hands to [setTimeout]. *)
Definition setTimeout (delay : Z) : M unit :=
  id <- gets next_id ;;
  emit (ESetTimeout id delay) ;;
  modify (fun s => with_next_id (S id) (with_timeouts ((id, delay) :: timeouts s) s)).

Definition setInterval (period : Z) : M unit :=
  emit (ESetInterval period) ;;
  modify (with_interval (Some period)).

Definition clearInterval : M unit :=
  emit EClearInterval ;;
  modify (with_interval None).

(** [new Audio(url)] followed by [await audio.play()], up to the suspension. *)
Definition play (url : string) (k : cont) : M unit :=
  emit (EPlay url) ;;
  await k.

Definition push_chunk (c : blob) : M unit :=
  modify (fun s => with_chunksRef (chunksRef s ++ [c]) s).

Definition clear_chunks : M unit :=
  modify (with_chunksRef []).

Fixpoint lookup {A} (id : nat) (l : list (nat * A)) : option A :=
  match l with
  | [] => None
  | (i, a) :: r => if Nat.eqb id i then Some a else lookup id r
  end.

Fixpoint remove {A} (id : nat) (l : list (nat * A)) : list (nat * A) :=
  match l with
  | [] => []
  | (i, a) :: r => if Nat.eqb id i then remove id r else (i, a) :: remove id r
  end.

(* ================================================================== *)
(** ** The handlers of [CallInterfaceClean] *)

Section Component.

(** [JSON.parse]: [None] when it throws a [SyntaxError]. *)
Variable JSON_parse : string -> option jsval.

Definition json_parse (raw : string) : M jsval :=
  match JSON_parse raw with
  | Some v => ret v
  | None => throw SyntaxError
  end.

(** *** Polling (lines 17-34) *)

(** The interval callback up to [await fetch(...)]. *)
Definition poll_tick : M unit :=
  fetch GET "http://127.0.0.1:5002/get_latest_response" None KPoll.

(** The interval callback from the settled fetch on (lines 20-31). *)
Definition poll_resume (r : fetch_result) : M unit :=
  try_catch
    (res <- settled r ;;
     if negb (res_ok res) then ret tt
     else
       data <- res_json res ;;
       a <- js_get data "last_response" ;;
       ab <- orM a (js_get data "reply") ;;
       let last := js_or ab (JStr "") in
       if truthy last then
         text <- StringM last ;;
         setResponse text ;;
         setIsAISpeaking true ;;
         setTimeout 1800
       else ret tt)
    (fun _ => console LError "Polling error:").

(** A timer set by line 27 fires. *)
Definition timeout_fires (id : nat) : M unit :=
  modify (fun s => with_timeouts (remove id (timeouts s)) s) ;;
  setIsAISpeaking false.

(** *** Location (lines 36-69) *)

(** [geo?.city || geo?.city_name || ""] and its two siblings. *)
Definition city_of (geo : jsval) : jsval :=
  js_or (js_or (js_get_opt geo "city") (js_get_opt geo "city_name")) (JStr "").

Definition region_of (geo : jsval) : jsval :=
  js_or (js_or (js_get_opt geo "regionName") (js_get_opt geo "region")) (JStr "").

Definition country_of (geo : jsval) : jsval :=
  js_or (js_get_opt geo "country") (JStr "").

(** Lines 37-51.  The result tells whether the effect returned at line 48. *)
Definition location_from_cache (raw : option string) : M bool :=
  try_catch
    (match raw with
     | Some text =>
         if nonempty text then
           info <- json_parse text ;;
           g <- js_get info "geolocation" ;;
           let geo := js_or g info in
           let city := city_of geo in
           let region := region_of geo in
           let country := country_of geo in
           let parts := filter truthy [city; region; country] in
           match parts with
           | _ :: _ =>
               text <- joinM ", " parts ;;
               setIpLocation (JStr text) ;;
               ret true
           | [] => ret false
           end
         else ret false
     | None => ret false
     end)
    (fun _ => ret false).

(** The second effect: the cache, then the remote lookup up to its
    [await fetch(...)]. *)
Definition location_effect (raw : option string) : M unit :=
  done <- location_from_cache raw ;;
  if (done : bool) then ret tt
  else fetch GET "http://127.0.0.1:5002/get_ip" None KLocation.

(** Lines 55-67, from the settled fetch on. *)
Definition location_resume (r : fetch_result) : M unit :=
  try_catch
    (res <- settled r ;;
     if negb (res_ok res) then throw (Error "IP fetch failed")
     else
       data <- res_json res ;;
       g <- js_get data "geolocation" ;;
       g' <- orM g (js_get data "location_info") ;;
       let geo := js_or g' (JObj []) in
       c <- js_get geo "city" ;;
       c' <- orM c (js_get geo "city_name") ;;
       let city := js_or c' (JStr "") in
       r <- js_get geo "regionName" ;;
       r' <- orM r (js_get geo "region") ;;
       let region := js_or r' (JStr "") in
       k <- js_get geo "country" ;;
       let country := js_or k (JStr "") in
       p <- js_get data "public_ip" ;;
       p' <- orM p (js_get data "ip") ;;
       let publicIp := js_or p' (JStr "") in
       let parts := filter truthy [city; region; country] in
       shown <- match parts with
                | _ :: _ => text <- joinM ", " parts ;; ret (JStr text)
                | [] => ret (js_or publicIp (JStr "Unknown location"))
                end ;;
       setIpLocation shown)
    (fun _ => setIpLocation (JStr "Location unavailable")).

(** *** Ending the call (lines 71-78, and [handleEndCall] of [App]) *)

(** [App.handleEndCall]: [setIsCallActive(false)] and the scroll to the
    top.  The first call takes the call interface off the page, and
    unmounting it runs the cleanup of the polling effect (line 33); a later
    call finds nothing mounted and no cleanup left to run. *)
Definition handleEndCall : M unit :=
  mounted <- gets isCallActive ;;
  modify (with_isCallActive false) ;;
  emit EScrollTop ;;
  if (mounted : bool) then clearInterval else ret tt.

Definition handleEnd : M unit :=
  fetch POST "http://127.0.0.1:5002/stop_listening" None KHandleEnd.

Definition handleEnd_resume (r : fetch_result) : M unit :=
  try_catch
    (_ <- settled r ;; ret tt)
    (fun _ => console LError "") ;;
  handleEndCall.

(** *** Recording (lines 80-169) *)

Definition startRecording : M unit :=
  fetch POST "http://127.0.0.1:5002/start_listening" None KStartListening.

(** Lines 84-90: the inner [try] around [start_listening], then the request
    for the microphone. *)
Definition startListening_resume (r : fetch_result) : M unit :=
  try_catch
    (_ <- settled r ;; ret tt)
    (fun _ => console LWarn "start_listening failed:") ;;
  emit EGetUserMedia ;;
  await KGetUserMedia.

(** Lines 90-158 once [getUserMedia] settles: the recorder is created, its
    handlers installed, and it is started with a 2500 ms timeslice.  A
    refusal throws at the [await]; so would a recorder that cannot be
    created or started, before the ref is assigned, and the [catch] of line
    156 treats both alike. *)
Definition getUserMedia_resume (granted : bool) : M unit :=
  try_catch
    (if granted then
       emit (ERecorderStart 2500) ;;
       modify (with_mediaRecorderRef (Some Recording)) ;;
       setIsRecording true
     else throw MediaError)
    (fun _ => console LError "").

(** [mr.ondataavailable] up to [await fetch(...)] (lines 93-105). *)
Definition ondataavailable (data : option blob) : M unit :=
  try_catch
    (match data with
     | None => ret tt
     | Some chunk =>
         if Nat.eqb (blob_size chunk) 0 then ret tt
         else
           push_chunk chunk ;;
           fetch POST "http://127.0.0.1:5002/upload_audio"
             (Some {| part_name := "audio"; payload := chunk;
                      filename := "chunk.webm" |})
             KChunkUpload
     end)
    (fun _ => console LError "ondataavailable upload error:").

(** Lines 105-122, from the settled upload on.  The inner [try] of line 113
    also covers the conversion of [data.audio_url]. *)
Definition chunk_upload_resume (r : fetch_result) : M unit :=
  try_catch
    (res <- settled r ;;
     if negb (res_ok res) then console LWarn "chunk upload failed"
     else
       data <- res_json res ;;
       reply <- js_get data "reply" ;;
       (if truthy reply then text <- StringM reply ;; setResponse text
        else ret tt) ;;
       url <- js_get data "audio_url" ;;
       if truthy url then
         try_catch
           (src <- StringM url ;; play src KChunkPlay)
           (fun _ => console LError "Failed to play audio")
       else ret tt)
    (fun _ => console LError "ondataavailable upload error:").

(** Lines 115-121, once [audio.play()] settles. *)
Definition chunk_play_resume (ok : bool) : M unit :=
  try_catch
    (try_catch
       (if ok then ret tt else throw PlayError)
       (fun _ => console LError "Failed to play audio"))
    (fun _ => console LError "ondataavailable upload error:").

(** [mr.onstop] up to [await fetch(...)] (lines 126-132).  The early return
    of line 128 leaves the [try], so the [finally] of line 146 runs. *)
Definition onstop : M unit :=
  chunks <- gets chunksRef ;;
  match chunks with
  | [] => try_finally (ret tt) clear_chunks
  | _ :: _ =>
      fetch POST "http://127.0.0.1:5002/upload_audio"
        (Some {| part_name := "audio"; payload := new_Blob chunks;
                 filename := "recording_final.webm" |})
        KFinalUpload
  end.

(** Lines 132-149, from the settled upload on.  The function either suspends
    again at [audio.play()] or finishes, and only then runs its [finally].
    The inner [try] of line 137 also covers the conversion of
    [data.audio_url]. *)
Definition final_upload_resume (r : fetch_result) : M unit :=
  suspended <-
    try_catch
      (res <- settled r ;;
       if negb (res_ok res) then throw (Error "final upload failed")
       else
         data <- res_json res ;;
         reply <- js_get data "reply" ;;
         (if truthy reply then text <- StringM reply ;; setResponse text
          else ret tt) ;;
         url <- js_get data "audio_url" ;;
         if truthy url then
           try_catch
             (src <- StringM url ;; play src KFinalPlay ;; ret true)
             (fun _ => console LError "Failed to play audio" ;; ret false)
         else ret false)
      (fun _ => console LError "final upload error:" ;; ret false) ;;
  if (suspended : bool) then ret tt else clear_chunks.

(** Lines 139-149, once [audio.play()] settles. *)
Definition final_play_resume (ok : bool) : M unit :=
  try_finally
    (try_catch
       (try_catch
          (if ok then ret tt else throw PlayError)
          (fun _ => console LError "Failed to play audio"))
       (fun _ => console LError "final upload error:"))
    clear_chunks.

(** [stopRecording] (lines 161-169).  [mr.state] is read from the recorder
    itself, as the browser has it at that moment. *)
Definition stopRecording : M unit :=
  try_catch
    (mr <- gets mediaRecorderRef ;;
     match mr with
     | Some Recording | Some Paused =>
         emit ERecorderStop ;;
         modify (with_mediaRecorderRef (Some Inactive))
     | Some Inactive | None => ret tt
     end)
    (fun _ => console LError "") ;;
  setIsRecording false.

(** The record button (line 178). *)
Definition record_button : M unit :=
  recording <- gets isRecording ;;
  if (recording : bool) then stopRecording else startRecording.

(** The browser ends the recorder the ref holds without [stop()] having
    been called (the captured stream ended, or recording failed): no code of
    the component runs, but the recorder's [state] reads ["inactive"] from
    then on.  Its last fragment and its stop event follow as separate
    events. *)
Definition recorder_ended : M unit :=
  modify (with_mediaRecorderRef (Some Inactive)).

(* ================================================================== *)
(** ** The event loop *)

(** How the environment settles a pending task. *)
Inductive completion :=
| Fetched (r : fetch_result)
| Played (ok : bool)
| Media (granted : bool).

Inductive event :=
| Tick
| Timeout (id : nat)
| ClickRecord
| ClickEnd
| DataAvailable (data : option blob)
| RecorderStopped
| Settle (id : nat) (c : completion)
| RecorderEnded.

Definition resume (k : cont) (c : completion) : option (M unit) :=
  match k, c with
  | KPoll, Fetched r => Some (poll_resume r)
  | KLocation, Fetched r => Some (location_resume r)
  | KHandleEnd, Fetched r => Some (handleEnd_resume r)
  | KStartListening, Fetched r => Some (startListening_resume r)
  | KGetUserMedia, Media g => Some (getUserMedia_resume g)
  | KChunkUpload, Fetched r => Some (chunk_upload_resume r)
  | KChunkPlay, Played ok => Some (chunk_play_resume ok)
  | KFinalUpload, Fetched r => Some (final_upload_resume r)
  | KFinalPlay, Played ok => Some (final_play_resume ok)
  | _, _ => None
  end.

(** The code an event runs, when the event can happen in the state at all:
    the interval ticks only while it is set, a timeout fires only while
    pending, buttons exist only while the interface is mounted, a task
    settles only while pending and only with the kind of result it awaits,
    and the browser ends only a recorder that is not inactive yet.
    [DataAvailable] and [RecorderStopped] are the events of any recorder the
    component has started, whether or not the ref still holds it; the one
    in the ref fires its stop event after [stop()] or [RecorderEnded] has
    made it inactive. *)
Definition handler (ev : event) (st : state) : option (M unit) :=
  match ev with
  | Tick =>
      match interval st with
      | Some _ => Some poll_tick
      | None => None
      end
  | Timeout id =>
      match lookup id (timeouts st) with
      | Some _ => Some (timeout_fires id)
      | None => None
      end
  | ClickRecord => if isCallActive st then Some record_button else None
  | ClickEnd => if isCallActive st then Some handleEnd else None
  | DataAvailable data => Some (ondataavailable data)
  | RecorderStopped => Some onstop
  | Settle id c =>
      match lookup id (tasks st) with
      | Some k =>
          match resume k c with
          | Some m =>
              Some (modify (fun s => with_tasks (remove id (tasks s)) s) ;; m)
          | None => None
          end
      | None => None
      end
  | RecorderEnded =>
      match mediaRecorderRef st with
      | Some Recording | Some Paused => Some recorder_ended
      | Some Inactive | None => None
      end
  end.

(** What the runtime makes of a finished handler: an exception that leaves
    it is reported and recorded as [EUncaught]. *)
Definition report (p : result unit * state) : state :=
  match p with
  | (Ok _, st') => st'
  | (Throw e, st') => with_trace (trace st' ++ [EUncaught e]) st'
  end.

(** One turn of the event loop. *)
Definition step (ev : event) (st : state) : state :=
  match handler ev st with
  | None => st
  | Some m => report (m st)
  end.

Definition run (evs : list event) (st : state) : state :=
  fold_left (fun s ev => step ev s) evs st.

(** The component right after it is mounted: both effects have run, with
    [raw] what [sessionStorage.getItem("initial_ip_info")] returned. *)
Definition mount (raw : option string) : state :=
  snd ((setInterval 2500 ;; location_effect raw) initial).

End Component.

(* ================================================================== *)
(** ** Vocabulary of the properties *)

Definition upload_url : string := "http://127.0.0.1:5002/upload_audio".

Definition poll_request : request :=
  {| req_method := GET;
     req_url := "http://127.0.0.1:5002/get_latest_response";
     req_body := None |}.

Definition stop_listening_request : request :=
  {| req_method := POST;
     req_url := "http://127.0.0.1:5002/stop_listening";
     req_body := None |}.

(** The upload of one timed fragment, and the final upload. *)
Definition chunk_request (c : blob) : request :=
  {| req_method := POST; req_url := upload_url;
     req_body := Some {| part_name := "audio"; payload := c;
                         filename := "chunk.webm" |} |}.

Definition final_request (b : blob) : request :=
  {| req_method := POST; req_url := upload_url;
     req_body := Some {| part_name := "audio"; payload := b;
                         filename := "recording_final.webm" |} |}.

(** The calls made to the upload endpoint, in order. *)
Definition upload_of (e : effect) : list request :=
  match e with
  | EFetch r => if String.eqb (req_url r) upload_url then [r] else []
  | _ => []
  end.

Definition upload_requests (tr : list effect) : list request :=
  flat_map upload_of tr.

(** Among them, those sent under the file name of a timed fragment. *)
Definition is_chunk_upload (r : request) : bool :=
  match req_body r with
  | Some f => String.eqb (filename f) "chunk.webm"
  | None => false
  end.

Definition chunk_uploads (tr : list effect) : list request :=
  filter is_chunk_upload (upload_requests tr).

(** The exceptions that escaped a handler. *)
Definition uncaught_of (e : effect) : list exn :=
  match e with
  | EUncaught x => [x]
  | _ => []
  end.

Definition uncaught (tr : list effect) : list exn := flat_map uncaught_of tr.

(** The non-empty fragments an event hands to [ondataavailable]. *)
Definition fragment_of (ev : event) : list blob :=
  match ev with
  | DataAvailable (Some c) => if Nat.eqb (blob_size c) 0 then [] else [c]
  | _ => []
  end.

Definition fragments (evs : list event) : list blob := flat_map fragment_of evs.

Definition is_stop (ev : event) : bool :=
  match ev with RecorderStopped => true | _ => false end.

(** A stretch of events during which no recorder reports that it stopped. *)
Definition capturing (evs : list event) : bool := forallb (fun ev => negb (is_stop ev)) evs.

(** No [onstop] handler is suspended. *)
Definition is_finalize (k : cont) : bool :=
  match k with
  | KFinalUpload | KFinalPlay => true
  | _ => false
  end.

Definition finalize_idle (st : state) : bool :=
  forallb (fun p => negb (is_finalize (snd p))) (tasks st).

(** The final upload issued when the recorder stops with [chunks] buffered. *)
Definition final_upload_for (chunks : list blob) : list request :=
  match chunks with
  | [] => []
  | _ :: _ => [final_request (new_Blob chunks)]
  end.

(** The reply text a poll result carries, as line 23 reads it:
    [data.last_response || data.reply || ""]. *)
Definition latest_reply (data : jsval) : jsval :=
  js_or (js_or (own data "last_response") (own data "reply")) (JStr "").

(** What [if (v) ... String(v) ...] makes of a field of a response: nothing
    for a falsy value, a text, or a failed conversion. *)
Inductive rendering :=
| Skipped
| Text (s : string)
| Unprintable.

Definition rendered (v : jsval) : rendering :=
  if truthy v then
    match js_String v with
    | Some s => Text s
    | None => Unprintable
    end
  else Skipped.

(* ================================================================== *)
(** ** Recording sessions, failures, scenarios *)

(** The upload calls made from state [st] until the recorder, having
    delivered [evs], reports that it stopped. *)
Definition session_uploads (st : state) (evs : list event) : list request :=
  skipn (List.length (upload_requests (trace st)))
        (upload_requests (trace (run (evs ++ [RecorderStopped]) st))).

(** A fragment as [ondataavailable] rejects it: [null], or of size zero. *)
Definition blank (data : option blob) : Prop :=
  data = None \/ exists c, data = Some c /\ blob_size c = 0.

(** A request that failed: the fetch rejected, or the status is not 2xx. *)
Definition transport_failed (r : fetch_result) : Prop :=
  r = NetworkError \/ exists res, r = Resp res /\ res_ok res = false.

(** The ways the [onstop] handler suspended as [k] runs to its end when
    settled with [c]: the upload threw, came back non-2xx, came back 2xx
    with nothing to play (or with an unreadable body, or with a reply or an
    audio URL that cannot be converted to text), or the playback it was
    waiting for settled. *)
Inductive finalize_done : cont -> completion -> Prop :=
| done_rejected :
    finalize_done KFinalUpload (Fetched NetworkError)
| done_not_ok res :
    res_ok res = false ->
    finalize_done KFinalUpload (Fetched (Resp res))
| done_unreadable res :
    res_ok res = true -> body res = None ->
    finalize_done KFinalUpload (Fetched (Resp res))
| done_null_body res data :
    res_ok res = true -> body res = Some data -> nullish data = true ->
    finalize_done KFinalUpload (Fetched (Resp res))
| done_no_audio res data :
    res_ok res = true -> body res = Some data -> nullish data = false ->
    truthy (own data "audio_url") = false ->
    finalize_done KFinalUpload (Fetched (Resp res))
| done_unprintable_reply res data :
    res_ok res = true -> body res = Some data -> nullish data = false ->
    rendered (own data "reply") = Unprintable ->
    finalize_done KFinalUpload (Fetched (Resp res))
| done_unprintable_audio res data :
    res_ok res = true -> body res = Some data -> nullish data = false ->
    rendered (own data "audio_url") = Unprintable ->
    finalize_done KFinalUpload (Fetched (Resp res))
| done_played ok :
    finalize_done KFinalPlay (Played ok).

(** Scenarios. *)
Definition no_parse : string -> option jsval := fun _ => None.

Definition ok_with (data : jsval) : fetch_result :=
  Resp {| status := 200; body := Some data |}.

(** Freshly mounted with nothing cached, then the record button pressed,
    [start_listening] answered and the microphone granted. *)
Definition recording_state : state :=
  run [ClickRecord; Settle 1 (Fetched (ok_with (JObj []))); Settle 2 (Media true)]
      (mount no_parse None).


(** A first session of one fragment, stopped, whose final upload is in
    flight; nothing has been started since. *)
Definition first_finalizing_state : state :=
  run [DataAvailable (Some ["001"%byte]); ClickRecord; RecorderStopped]
      recording_state.

(** What follows the completion of that final upload in the scenario of
    three sessions: a second session of one fragment is recorded and
    stopped, and while its final upload is in flight a third recording is
    started. *)
Definition second_session_then_third : list event :=
  [ClickRecord; Settle 5 (Fetched (ok_with (JObj []))); Settle 6 (Media true);
   DataAvailable (Some ["002"%byte]); ClickRecord; RecorderStopped;
   ClickRecord; Settle 9 (Fetched (ok_with (JObj []))); Settle 10 (Media true)].

(* ================================================================== *)
(** ** Location *)

Definition get_ip_request : request :=
  {| req_method := GET;
     req_url := "http://127.0.0.1:5002/get_ip";
     req_body := None |}.

(** The location line as the design document words it: ["{city}, {region},
    {country}"] from whichever fields are present, an empty field leaving
    no trace. *)
Definition location_text (city region country : string) : string :=
  match nonempty city, nonempty region, nonempty country with
  | true, true, true => city ++ ", " ++ region ++ ", " ++ country
  | true, true, false => city ++ ", " ++ region
  | true, false, true => city ++ ", " ++ country
  | true, false, false => city
  | false, true, true => region ++ ", " ++ country
  | false, true, false => region
  | false, false, true => country
  | false, false, false => ""
  end%string.

(** The record the remote lookup describes the place with:
    [data.geolocation || data.location_info || {}]. *)
Definition remote_geo (data : jsval) : jsval :=
  js_or (js_or (own data "geolocation") (own data "location_info")) (JObj []).

(** [data.public_ip || data.ip || ""]. *)
Definition remote_ip (data : jsval) : jsval :=
  js_or (js_or (own data "public_ip") (own data "ip")) (JStr "").

(** The remote lookup failed: the fetch rejected, the status is not 2xx, or
    the body cannot be read as a JSON value with properties. *)
Definition lookup_failed (r : fetch_result) : Prop :=
  r = NetworkError
  \/ exists res, r = Resp res
       /\ (res_ok res = false
           \/ body res = None
           \/ exists data, body res = Some data /\ nullish data = true).

(* ================================================================== *)
(** ** Frames and safety

    Most handlers leave most of the state alone.  For a preorder [R] on
    states, [keeps R m] says that running [m] moves the state along [R];
    [safe m] says that [m] never ends in an exception. *)

Definition keeps (R : state -> state -> Prop) {A} (m : M A) : Prop :=
  forall st, R st (snd (m st)).

Definition safe {A} (m : M A) : Prop :=
  forall st, exists a, fst (m st) = Ok a.

(** [quiet s s']: the buffer and the upload calls are those of [s], and no
    [onstop] handler got suspended on the way. *)
Definition quiet (s s' : state) : Prop :=
  chunksRef s' = chunksRef s
  /\ upload_requests (trace s') = upload_requests (trace s)
  /\ (finalize_idle s = true -> finalize_idle s' = true).

(** [calm s s']: nothing was sent under the file name of a timed fragment. *)
Definition calm (s s' : state) : Prop :=
  chunk_uploads (trace s') = chunk_uploads (trace s).

(** [shrinks s s']: the buffer was left alone or emptied. *)
Definition shrinks (s s' : state) : Prop :=
  chunksRef s' = chunksRef s \/ chunksRef s' = [].

(** [clean s s']: nothing was reported as uncaught. *)
Definition clean (s s' : state) : Prop :=
  uncaught (trace s') = uncaught (trace s).

(* ================================================================== *)
(** ** The recorder, polling and the indicator over whole runs *)

Definition start_listening_request : request :=
  {| req_method := POST;
     req_url := "http://127.0.0.1:5002/start_listening";
     req_body := None |}.

(** How often the component started a recorder, and how often it called
    [stop()] on one. *)
Definition is_recorder_start (e : effect) : bool :=
  match e with ERecorderStart _ => true | _ => false end.

Definition is_recorder_stop (e : effect) : bool :=
  match e with ERecorderStop => true | _ => false end.

Definition recorder_starts (tr : list effect) : nat :=
  List.length (filter is_recorder_start tr).

Definition recorder_stops (tr : list effect) : nat :=
  List.length (filter is_recorder_stop tr).

(** 1 when the recorder the ref points to would accept [stop()]. *)
Definition live (st : state) : nat :=
  match mediaRecorderRef st with
  | Some Recording | Some Paused => 1
  | Some Inactive | None => 0
  end.

(** The poll requests sent, in order. *)
Definition poll_of (e : effect) : list request :=
  match e with
  | EFetch r => if String.eqb (req_url r) (req_url poll_request) then [r] else []
  | _ => []
  end.

Definition poll_requests (tr : list effect) : list request :=
  flat_map poll_of tr.

(** [recorder_untouched s s']: neither the recorder ref, nor the recording
    flag, nor the starts and stops sent so far have changed, and the
    interface has not come back on the page. *)
Definition recorder_untouched (s s' : state) : Prop :=
  mediaRecorderRef s' = mediaRecorderRef s
  /\ isRecording s' = isRecording s
  /\ recorder_starts (trace s') = recorder_starts (trace s)
  /\ recorder_stops (trace s') = recorder_stops (trace s)
  /\ (isCallActive s' = true -> isCallActive s = true).

(** [hushed s s']: the speaking indicator is as it was. *)
Definition hushed (s s' : state) : Prop :=
  isAISpeaking s' = isAISpeaking s.

(** [parked s s']: if no interval was set, none is set now and no poll
    request went out. *)
Definition parked (s s' : state) : Prop :=
  interval s = None ->
  interval s' = None /\ poll_requests (trace s') = poll_requests (trace s).

(** No remote lookup is pending. *)
Definition is_location (k : cont) : bool :=
  match k with KLocation => true | _ => false end.

Definition lookup_settled (st : state) : bool :=
  forallb (fun p => negb (is_location (snd p))) (tasks st).

(** [located s s']: if no lookup was pending, none is pending now and the
    location shown is the same. *)
Definition located (s s' : state) : Prop :=
  lookup_settled s = true ->
  lookup_settled s' = true /\ ipLocation s' = ipLocation s.

(** [same_tasks s s']: nothing was suspended. *)
Definition same_tasks (s s' : state) : Prop := tasks s' = tasks s.

(** The invariant tying the record button to the recorder: the stops sent
    never outnumber the starts, and a recorder that would accept [stop()]
    has a start not yet matched by a stop; while the interface is mounted, a
    recorder in the ref that is recording has the flag behind the button
    label up; the flag is up only once the ref holds a recorder, recording
    or made inactive by the browser; and the ref never holds a paused
    recorder. *)
Definition recorder_consistent (st : state) : Prop :=
  recorder_stops (trace st) + live st <= recorder_starts (trace st)
  /\ (isCallActive st = true -> mediaRecorderRef st = Some Recording ->
      isRecording st = true)
  /\ (isRecording st = true ->
      mediaRecorderRef st = Some Recording
      \/ mediaRecorderRef st = Some Inactive)
  /\ mediaRecorderRef st <> Some Paused.

(* ================================================================== *)
(** ** [App] and [HeroSection]

    [App] holds the two flags that decide what is on the page;
    [HeroSection], shown while no call is active, wraps the TALK button.
    [LocationConsentModal], [Header] and the DOM are outside the sources:
    their callbacks are events that may arrive at any time, and
    [document.getElementById] is represented by whether it found the
    element. *)

Module App.

Inductive effect :=
| Fetch (r : request)
| Console (l : level) (msg : string)
| ScrollTop
| ScrollIntoView (section : string).

Record state := {
  showConsentModal : bool;
  isCallActive : bool;
  (* [handleCallClick] calls suspended at their [await fetch(...)] *)
  pending : list nat;
  next_id : nat;
  trace : list effect
}.

Definition initial : state :=
  {| showConsentModal := false; isCallActive := false;
     pending := []; next_id := 0; trace := [] |}.

Definition emit (e : effect) (s : state) : state :=
  {| showConsentModal := showConsentModal s; isCallActive := isCallActive s;
     pending := pending s; next_id := next_id s; trace := trace s ++ [e] |}.

Definition setShowConsentModal (b : bool) (s : state) : state :=
  {| showConsentModal := b; isCallActive := isCallActive s;
     pending := pending s; next_id := next_id s; trace := trace s |}.

Definition setIsCallActive (b : bool) (s : state) : state :=
  {| showConsentModal := showConsentModal s; isCallActive := b;
     pending := pending s; next_id := next_id s; trace := trace s |}.

Definition start_request : request :=
  {| req_method := POST;
     req_url := "http://127.0.0.1:5001/start_listening";
     req_body := None |}.

(** [App.handleCallClick], the [onCallClick] of [HeroSection]. *)
Definition onCallClick (s : state) : state := setShowConsentModal true s.

(** [HeroSection.handleCallClick] up to its [await fetch(...)]. *)
Definition handleCallClick (s : state) : state :=
  let s1 := emit (Fetch start_request) s in
  {| showConsentModal := showConsentModal s1; isCallActive := isCallActive s1;
     pending := next_id s1 :: pending s1; next_id := S (next_id s1);
     trace := trace s1 |}.

(** [HeroSection.handleCallClick] once the fetch has settled: a rejection
    is logged, the status is not looked at, and [onCallClick] runs. *)
Definition handleCallClick_resume (id : nat) (r : fetch_result) (s : state) : state :=
  let s1 :=
    {| showConsentModal := showConsentModal s; isCallActive := isCallActive s;
       pending := List.remove Nat.eq_dec id (pending s); next_id := next_id s;
       trace := trace s |} in
  let s2 :=
    match r with
    | NetworkError => emit (Console LError "Failed to start listening:") s1
    | Resp _ => s1
    end in
  onCallClick s2.

Definition handleConsent (s : state) : state :=
  emit ScrollTop (setIsCallActive true (setShowConsentModal false s)).

Definition handleDecline (s : state) : state := setShowConsentModal false s.

Definition handleEndCall (s : state) : state :=
  emit ScrollTop (setIsCallActive false s).

Definition handleNavigate (section : string) (found : bool) (s : state) : state :=
  if found then emit (ScrollIntoView section) s else s.

Inductive event :=
| ClickTalk
| SettleTalk (id : nat) (r : fetch_result)
| Consent
| Decline
| EndCall
| Navigate (section : string) (found : bool).

(** One event.  The TALK button exists only while [HeroSection] is rendered,
    that is while no call is active; a fetch settles only while pending. *)
Definition step (ev : event) (s : state) : state :=
  match ev with
  | ClickTalk => if isCallActive s then s else handleCallClick s
  | SettleTalk id r =>
      if existsb (Nat.eqb id) (pending s) then handleCallClick_resume id r s
      else s
  | Consent => handleConsent s
  | Decline => handleDecline s
  | EndCall => handleEndCall s
  | Navigate section found => handleNavigate section found s
  end.

Definition run (evs : list event) (s : state) : state :=
  fold_left (fun s ev => step ev s) evs s.

Definition is_consent (ev : event) : bool :=
  match ev with Consent => true | _ => false end.

Definition is_talk_settled (ev : event) : bool :=
  match ev with SettleTalk _ _ => true | _ => false end.

(** The requests sent, in order. *)
Definition request_of (e : effect) : list request :=
  match e with Fetch r => [r] | _ => [] end.

Definition requests (tr : list effect) : list request := flat_map request_of tr.

End App.

(* ================================================================== *)
(** ** Symbolic execution of handlers *)

Ltac unfold_handlers :=
  cbv beta iota delta
    [step report run handler resume
     poll_tick poll_resume timeout_fires
     location_resume handleEndCall handleEnd handleEnd_resume
     startRecording startListening_resume getUserMedia_resume
     ondataavailable chunk_upload_resume chunk_play_resume
     onstop final_upload_resume final_play_resume stopRecording record_button
     recorder_ended
     fetch settled res_json js_get orM StringM joinM console
     setResponse setIsAISpeaking setIsRecording setIpLocation
     setTimeout setInterval clearInterval play push_chunk clear_chunks
     emit await bind ret throw try_catch try_finally gets modify].

(** Case analysis on a scrutinee the goal is stuck on, innermost first. *)
Ltac split_match :=
  match goal with
  | |- context [match ?x with _ => _ end] =>
      lazymatch x with
      | context [match _ with _ => _ end] => fail
      | _ => first [ is_var x; destruct x | destruct x eqn:? ]
      end
  end.

(** Two states with the same fields are the same state. *)
Lemma state_ext (a b : state) :
  isAISpeaking a = isAISpeaking b /\ response a = response b
  /\ isRecording a = isRecording b /\ ipLocation a = ipLocation b
  /\ mediaRecorderRef a = mediaRecorderRef b /\ chunksRef a = chunksRef b
  /\ isCallActive a = isCallActive b /\ interval a = interval b
  /\ timeouts a = timeouts b /\ tasks a = tasks b
  /\ next_id a = next_id b /\ trace a = trace b ->
  a = b.
Proof.
  destruct a, b; cbn.
  intros (-> & -> & -> & -> & -> & -> & -> & -> & -> & -> & -> & ->).
  reflexivity.
Qed.

Section Tables.
Context {A : Type}.

Lemma forallb_remove (P : nat * A -> bool) (id : nat) (l : list (nat * A)) :
  forallb P l = true -> forallb P (remove id l) = true.
Proof.
  induction l as [|[i a] l IH]; cbn; [easy|].
  intros H; apply andb_prop in H as [H1 H2].
  destruct (Nat.eqb id i); cbn; auto.
  now rewrite H1, IH.
Qed.

Lemma forallb_lookup (P : nat * A -> bool) (id : nat) (l : list (nat * A)) (a : A) :
  forallb P l = true -> lookup id l = Some a -> P (id, a) = true.
Proof.
  induction l as [|[i b] l IH]; cbn; [easy|].
  intros H; apply andb_prop in H as [H1 H2].
  destruct (Nat.eqb id i) eqn:E; auto.
  apply Nat.eqb_eq in E; subst i. now intros [= ->].
Qed.

End Tables.

Lemma upload_requests_app (a b : list effect) :
  upload_requests (a ++ b) = upload_requests a ++ upload_requests b.
Proof. apply flat_map_app. Qed.

Lemma upload_requests_snoc (tr : list effect) (e : effect) :
  upload_requests (tr ++ [e]) = upload_requests tr ++ upload_of e.
Proof. rewrite upload_requests_app. cbn. now rewrite app_nil_r. Qed.

Lemma chunk_uploads_snoc (tr : list effect) (e : effect) :
  chunk_uploads (tr ++ [e])
  = chunk_uploads tr ++ filter is_chunk_upload (upload_of e).
Proof. unfold chunk_uploads. now rewrite upload_requests_snoc, filter_app. Qed.

Arguments upload_requests : simpl never.
Arguments chunk_uploads : simpl never.

Lemma uncaught_app (a b : list effect) :
  uncaught (a ++ b) = uncaught a ++ uncaught b.
Proof. apply flat_map_app. Qed.

Lemma run_app (a b : list event) (st : state) :
  run (a ++ b) st = run b (run a st).
Proof. apply fold_left_app. Qed.

(* ================================================================== *)
(** ** Frame reasoning

    [keeps R m] is established one combinator at a time, down to the
    [modify] calls at the leaves. *)

Section Frames.
Variable R : state -> state -> Prop.
Hypothesis R_refl : forall s, R s s.
Hypothesis R_trans : forall a b c, R a b -> R b c -> R a c.

Lemma keeps_ret {A} (a : A) : keeps R (ret a).
Proof. intro st; apply R_refl. Qed.

Lemma keeps_throw {A} (e : exn) : keeps R (@throw A e).
Proof. intro st; apply R_refl. Qed.

Lemma keeps_gets {A} (f : state -> A) : keeps R (gets f).
Proof. intro st; apply R_refl. Qed.

Lemma keeps_modify (f : state -> state) :
  (forall s, R s (f s)) -> keeps R (modify f).
Proof. intros H st; apply H. Qed.

Lemma keeps_bind {A B} (m : M A) (f : A -> M B) :
  keeps R m -> (forall a, keeps R (f a)) -> keeps R (bind m f).
Proof.
  intros Hm Hf st. unfold bind.
  specialize (Hm st). destruct (m st) as [[a|e] st']; cbn in *; auto.
  eapply R_trans; [exact Hm | apply Hf].
Qed.

Lemma keeps_try_catch {A} (m : M A) (h : exn -> M A) :
  keeps R m -> (forall e, keeps R (h e)) -> keeps R (try_catch m h).
Proof.
  intros Hm Hh st. unfold try_catch.
  specialize (Hm st). destruct (m st) as [[a|e] st']; cbn in *; auto.
  eapply R_trans; [exact Hm | apply Hh].
Qed.

Lemma keeps_try_finally {A} (m : M A) (f : M unit) :
  keeps R m -> keeps R f -> keeps R (try_finally m f).
Proof.
  intros Hm Hf st. unfold try_finally.
  specialize (Hm st). destruct (m st) as [r st']; cbn in *.
  specialize (Hf st'). destruct (f st') as [[a|e] st'']; cbn in *;
    eapply R_trans; eauto.
Qed.

(** An event moves the state along [R] as soon as its handler does and [R]
    tolerates the report of an escaped exception. *)
Lemma step_keeps (ev : event) (st : state) :
  (forall s e, R s (with_trace (trace s ++ [EUncaught e]) s)) ->
  (forall m, handler ev st = Some m -> keeps R m) ->
  R st (step ev st).
Proof.
  intros Hu Hm. unfold step, report.
  destruct (handler ev st) as [m|]; [|apply R_refl].
  specialize (Hm m eq_refl st). destruct (m st) as [[a|e] st']; cbn in *; auto.
  eapply R_trans; [exact Hm | apply Hu].
Qed.

End Frames.

Ltac head_of t :=
  lazymatch t with
  | ?f _ => head_of f
  | _ => t
  end.

(** Walk a handler body down to its state updates; [leaf] proves [R s (f s)]
    for each of them. *)
Ltac frame leaf :=
  cbv zeta;
  lazymatch goal with
  | |- keeps _ (bind _ _) =>
      apply keeps_bind; [eauto .. | frame leaf | intro; frame leaf]
  | |- keeps _ (try_catch _ _) =>
      apply keeps_try_catch; [eauto .. | frame leaf | intro; frame leaf]
  | |- keeps _ (try_finally _ _) =>
      apply keeps_try_finally; [eauto .. | frame leaf | frame leaf]
  | |- keeps _ (ret _) => apply keeps_ret; auto
  | |- keeps _ (throw _) => apply keeps_throw; auto
  | |- keeps _ (gets _) => apply keeps_gets; auto
  | |- keeps _ (modify _) => apply keeps_modify; intro; leaf
  | |- keeps _ (match ?x with _ => _ end) => destruct x; frame leaf
  | |- keeps _ ?m => let h := head_of m in unfold h; frame leaf
  end.

(* ================================================================== *)
(** ** Invariants of a recording session *)

Lemma quiet_refl s : quiet s s.
Proof. now repeat split. Qed.

Lemma quiet_trans a b c : quiet a b -> quiet b c -> quiet a c.
Proof.
  intros (H1 & H2 & H3) (K1 & K2 & K3). repeat split; try congruence; auto.
Qed.

#[local] Hint Resolve quiet_refl quiet_trans : core.

Ltac quiet_leaf :=
  unfold quiet, finalize_idle; cbn;
  repeat rewrite upload_requests_snoc; cbn;
  repeat rewrite app_nil_r;
  repeat split; auto using forallb_remove;
  match goal with
  | |- context [if ?b then _ else _] => destruct b; cbn; auto
  end.

Lemma quiet_uncaught s e : quiet s (with_trace (trace s ++ [EUncaught e]) s).
Proof. quiet_leaf. Qed.

(** Resuming anything but a suspended [onstop] is quiet. *)
Lemma resume_quiet (k : cont) (c : completion) (m : M unit) :
  is_finalize k = false -> resume k c = Some m -> keeps quiet m.
Proof.
  destruct k, c; cbn; try discriminate; intros _ [= <-]; frame quiet_leaf.
Qed.

(** So is every handler that neither receives a fragment nor finalizes. *)
Lemma handler_quiet (ev : event) (st : state) (m : M unit) :
  is_stop ev = false ->
  (forall d, ev <> DataAvailable d) ->
  finalize_idle st = true ->
  handler ev st = Some m -> keeps quiet m.
Proof.
  intros Hs Hd Hi. destruct ev; cbn; try discriminate.
  - destruct (interval st); [|discriminate]. intros [= <-]. frame quiet_leaf.
  - destruct (lookup id (timeouts st)); [|discriminate].
    intros [= <-]. frame quiet_leaf.
  - destruct (isCallActive st); [|discriminate]. intros [= <-]. frame quiet_leaf.
  - destruct (isCallActive st); [|discriminate]. intros [= <-]. frame quiet_leaf.
  - now destruct (Hd data).
  - destruct (lookup id (tasks st)) as [k|] eqn:Hk; [|discriminate].
    destruct (resume k c) as [m'|] eqn:Hr; [|discriminate].
    intros [= <-].
    pose proof (forallb_lookup _ _ _ _ Hi Hk) as Hf; cbn in Hf.
    apply negb_true_iff in Hf.
    apply (keeps_bind quiet quiet_trans).
    + apply keeps_modify. intro; quiet_leaf.
    + intros _. eapply resume_quiet; eauto.
  - destruct (mediaRecorderRef st) as [[| |]|]; try discriminate;
      intros [= <-]; frame quiet_leaf.
Qed.

(** What one event of a session does to the buffer and to the upload calls,
    while no [onstop] handler is suspended. *)
Lemma capture_step (ev : event) (st : state) :
  is_stop ev = false ->
  finalize_idle st = true ->
  chunksRef (step ev st) = chunksRef st ++ fragment_of ev
  /\ upload_requests (trace (step ev st))
     = upload_requests (trace st) ++ map chunk_request (fragment_of ev)
  /\ finalize_idle (step ev st) = true.
Proof.
  intros Hs Hi.
  assert (Hq : (forall d, ev <> DataAvailable d) ->
               fragment_of ev = [] -> quiet st (step ev st) ->
               chunksRef (step ev st) = chunksRef st ++ fragment_of ev
               /\ upload_requests (trace (step ev st))
                  = upload_requests (trace st) ++ map chunk_request (fragment_of ev)
               /\ finalize_idle (step ev st) = true).
  { intros _ -> (H1 & H2 & H3). cbn. rewrite !app_nil_r. auto. }
  destruct ev as [| | | |[c|]| | |]; try discriminate.
  5: destruct (Nat.eqb (blob_size c) 0) eqn:Hc.
  all: try (apply Hq; [intros d; discriminate | reflexivity |];
            apply (step_keeps quiet quiet_refl quiet_trans);
            [apply quiet_uncaught|];
            intros m Hm; eapply handler_quiet; eauto; intros d; discriminate).
  - unfold_handlers; cbn. rewrite Hc. cbn.
    rewrite !app_nil_r. auto.
  - unfold finalize_idle in *. unfold_handlers; cbn. rewrite Hc. cbn.
    rewrite upload_requests_snoc. cbn. repeat split; auto.
  - unfold_handlers; cbn. rewrite !app_nil_r. auto.
Qed.

(** The same, over a run of events. *)
Lemma capture_run (evs : list event) (st : state) :
  capturing evs = true ->
  finalize_idle st = true ->
  chunksRef (run evs st) = chunksRef st ++ fragments evs
  /\ upload_requests (trace (run evs st))
     = upload_requests (trace st) ++ map chunk_request (fragments evs)
  /\ finalize_idle (run evs st) = true.
Proof.
  revert st. induction evs as [|ev evs IH]; intros st Hc Hi; cbn.
  - rewrite !app_nil_r. auto.
  - cbn in Hc. apply andb_prop in Hc as [Hev Hc].
    apply negb_true_iff in Hev.
    destruct (capture_step ev st Hev Hi) as (H1 & H2 & H3).
    destruct (IH (step ev st) Hc H3) as (K1 & K2 & K3).
    fold (run evs (step ev st)).
    rewrite K1, K2, H1, H2, map_app, <- !app_assoc. auto.
Qed.

(** The recorder stops: one final upload of the whole buffer, unless the
    buffer is empty. *)
Lemma stop_step (st : state) :
  upload_requests (trace (step RecorderStopped st))
  = upload_requests (trace st) ++ final_upload_for (chunksRef st).
Proof.
  unfold_handlers; cbn. destruct (chunksRef st); cbn.
  - now rewrite app_nil_r.
  - now rewrite upload_requests_snoc.
Qed.

Lemma calm_refl s : calm s s.
Proof. reflexivity. Qed.

Lemma calm_trans a b c : calm a b -> calm b c -> calm a c.
Proof. unfold calm; congruence. Qed.

Ltac calm_leaf :=
  unfold calm; cbn;
  repeat rewrite chunk_uploads_snoc; cbn;
  repeat rewrite app_nil_r;
  auto;
  match goal with
  | |- context [if ?b then _ else _] => destruct b; cbn; auto
  end.

Lemma resume_calm (k : cont) (c : completion) (m : M unit) :
  resume k c = Some m -> keeps calm m.
Proof.
  pose proof calm_refl; pose proof calm_trans.
  destruct k, c; cbn; try discriminate; intros [= <-]; frame calm_leaf.
Qed.

Lemma handler_calm (ev : event) (st : state) (m : M unit) :
  (forall d, ev <> DataAvailable d) ->
  handler ev st = Some m -> keeps calm m.
Proof.
  pose proof calm_refl; pose proof calm_trans.
  intros Hd. destruct ev; cbn.
  - destruct (interval st); [|discriminate]. intros [= <-]. frame calm_leaf.
  - destruct (lookup id (timeouts st)); [|discriminate].
    intros [= <-]. frame calm_leaf.
  - destruct (isCallActive st); [|discriminate]. intros [= <-]. frame calm_leaf.
  - destruct (isCallActive st); [|discriminate]. intros [= <-]. frame calm_leaf.
  - now destruct (Hd data).
  - intros [= <-]. frame calm_leaf.
  - destruct (lookup id (tasks st)) as [k|] eqn:Hk; [|discriminate].
    destruct (resume k c) as [m'|] eqn:Hr; [|discriminate].
    intros [= <-].
    apply (keeps_bind calm calm_trans).
    + apply keeps_modify. intro; calm_leaf.
    + intros _. eapply resume_calm; eauto.
  - destruct (mediaRecorderRef st) as [[| |]|]; try discriminate;
      intros [= <-]; frame calm_leaf.
Qed.

(** Whatever happens, the uploads named [chunk.webm] are exactly the
    non-empty fragments, each sent once when it is delivered. *)
Lemma chunk_uploads_step (ev : event) (st : state) :
  chunk_uploads (trace (step ev st))
  = chunk_uploads (trace st) ++ map chunk_request (fragment_of ev).
Proof.
  assert (Hq : (forall d, ev <> DataAvailable d) ->
               chunk_uploads (trace (step ev st))
               = chunk_uploads (trace st) ++ map chunk_request (fragment_of ev)).
  { intros Hd.
    replace (fragment_of ev) with (@nil blob)
      by (destruct ev; try reflexivity; now destruct (Hd data)).
    cbn. rewrite app_nil_r.
    apply (step_keeps calm calm_refl calm_trans); [intros; calm_leaf|].
    intros m Hm. eapply handler_calm; eauto. }
  destruct ev as [| | | |[c|]| | |]; try (apply Hq; intros d; discriminate).
  - unfold_handlers; cbn. destruct (Nat.eqb (blob_size c) 0); cbn.
    + now rewrite app_nil_r.
    + now rewrite chunk_uploads_snoc.
  - unfold_handlers; cbn. now rewrite app_nil_r.
Qed.

Lemma chunk_uploads_run (evs : list event) (st : state) :
  chunk_uploads (trace (run evs st))
  = chunk_uploads (trace st) ++ map chunk_request (fragments evs).
Proof.
  revert st. induction evs as [|ev evs IH]; intros st; cbn.
  - now rewrite app_nil_r.
  - fold (run evs (step ev st)).
    now rewrite IH, chunk_uploads_step, map_app, app_assoc.
Qed.

Lemma shrinks_refl s : shrinks s s.
Proof. now left. Qed.

Lemma shrinks_trans a b c : shrinks a b -> shrinks b c -> shrinks a c.
Proof. unfold shrinks. intros [H|H] [K|K]; rewrite ?K, ?H; auto. Qed.

Ltac shrinks_leaf :=
  unfold shrinks; cbn; auto;
  match goal with
  | |- context [if ?b then _ else _] => destruct b; cbn; auto
  end.

Lemma resume_shrinks (k : cont) (c : completion) (m : M unit) :
  resume k c = Some m -> keeps shrinks m.
Proof.
  pose proof shrinks_refl; pose proof shrinks_trans.
  destruct k, c; cbn; try discriminate; intros [= <-]; frame shrinks_leaf.
Qed.

Lemma handler_shrinks (ev : event) (st : state) (m : M unit) :
  (forall d, ev <> DataAvailable d) ->
  handler ev st = Some m -> keeps shrinks m.
Proof.
  pose proof shrinks_refl; pose proof shrinks_trans.
  intros Hd. destruct ev; cbn.
  - destruct (interval st); [|discriminate]. intros [= <-]. frame shrinks_leaf.
  - destruct (lookup id (timeouts st)); [|discriminate].
    intros [= <-]. frame shrinks_leaf.
  - destruct (isCallActive st); [|discriminate]. intros [= <-]. frame shrinks_leaf.
  - destruct (isCallActive st); [|discriminate]. intros [= <-]. frame shrinks_leaf.
  - now destruct (Hd data).
  - intros [= <-]. frame shrinks_leaf.
  - destruct (lookup id (tasks st)) as [k|] eqn:Hk; [|discriminate].
    destruct (resume k c) as [m'|] eqn:Hr; [|discriminate].
    intros [= <-].
    apply (keeps_bind shrinks shrinks_trans).
    + apply keeps_modify. intro; shrinks_leaf.
    + intros _. eapply resume_shrinks; eauto.
  - destruct (mediaRecorderRef st) as [[| |]|]; try discriminate;
      intros [= <-]; frame shrinks_leaf.
Qed.

(** At any time the buffer is the tail end of what was there plus what has
    been captured since. *)
Lemma buffer_step (ev : event) (st : state) :
  exists gone, chunksRef st ++ fragment_of ev = gone ++ chunksRef (step ev st).
Proof.
  assert (Hq : (forall d, ev <> DataAvailable d) ->
               exists gone, chunksRef st ++ fragment_of ev
                            = gone ++ chunksRef (step ev st)).
  { intros Hd.
    replace (fragment_of ev) with (@nil blob)
      by (destruct ev; try reflexivity; now destruct (Hd data)).
    rewrite app_nil_r.
    assert (Hs : shrinks st (step ev st)).
    { apply (step_keeps shrinks shrinks_refl shrinks_trans); [intros; shrinks_leaf|].
      intros m Hm. eapply handler_shrinks; eauto. }
    destruct Hs as [-> | ->].
    - now exists [].
    - exists (chunksRef st). now rewrite app_nil_r. }
  destruct ev as [| | | |[c|]| | |]; try (apply Hq; intros d; discriminate).
  - exists []. unfold_handlers; cbn. destruct (Nat.eqb (blob_size c) 0); cbn.
    + now rewrite app_nil_r.
    + reflexivity.
  - exists []. unfold_handlers; cbn. now rewrite app_nil_r.
Qed.

Lemma buffer_run (evs : list event) (st : state) :
  exists gone, chunksRef st ++ fragments evs = gone ++ chunksRef (run evs st).
Proof.
  revert st. induction evs as [|ev evs IH]; intros st.
  - exists []. cbn. now rewrite app_nil_r.
  - change (fragments (ev :: evs)) with (fragment_of ev ++ fragments evs).
    change (run (ev :: evs) st) with (run evs (step ev st)).
    destruct (buffer_step ev st) as [g1 H1].
    destruct (IH (step ev st)) as [g2 H2].
    exists (g1 ++ g2).
    now rewrite app_assoc, H1, <- !app_assoc, H2.
Qed.

(* ================================================================== *)
(** ** Running a settled task; property reads that cannot throw *)

Lemma bind_ret {A B} (a : A) (f : A -> M B) : bind (ret a) f = f a.
Proof. reflexivity. Qed.

Lemma js_get_ok (v : jsval) (k : string) :
  nullish v = false -> js_get v k = ret (own v k).
Proof. unfold js_get. now intros ->. Qed.

Lemma orM_get (a v : jsval) (k : string) :
  nullish v = false -> orM a (js_get v k) = ret (js_or a (own v k)).
Proof.
  intros H. unfold orM, js_or. rewrite (js_get_ok v k H).
  now destruct (truthy a).
Qed.

Lemma truthy_not_nullish (v : jsval) : truthy v = true -> nullish v = false.
Proof. now destruct v. Qed.

Lemma js_or_object_not_nullish (v : jsval) (fs : list (string * jsval)) :
  nullish (js_or v (JObj fs)) = false.
Proof.
  unfold js_or. destruct (truthy v) eqn:E; [|reflexivity].
  now apply truthy_not_nullish.
Qed.

Lemma js_get_opt_own (v : jsval) (k : string) :
  nullish v = false -> js_get_opt v k = own v k.
Proof. unfold js_get_opt. now intros ->. Qed.

(** A pending task settles: it leaves the table and its continuation runs. *)
Lemma settle_step (st : state) (id : nat) (k : cont) (c : completion)
    (m : M unit) :
  lookup id (tasks st) = Some k ->
  resume k c = Some m ->
  step (Settle id c) st = report (m (with_tasks (remove id (tasks st)) st)).
Proof.
  intros Hk Hr. unfold step, handler. now rewrite Hk, Hr.
Qed.

(* ================================================================== *)
(** ** No handler lets an exception out *)

Lemma safe_ret {A} (a : A) : safe (ret a).
Proof. intro st. now exists a. Qed.

Lemma safe_gets {A} (f : state -> A) : safe (gets f).
Proof. intro st. now exists (f st). Qed.

Lemma safe_modify (f : state -> state) : safe (modify f).
Proof. intro st. now exists tt. Qed.

Lemma safe_bind {A B} (m : M A) (f : A -> M B) :
  safe m -> (forall a, safe (f a)) -> safe (bind m f).
Proof.
  intros Hm Hf st. unfold bind.
  destruct (Hm st) as [a Ha]. destruct (m st) as [r st']. cbn in Ha. subst r.
  apply Hf.
Qed.

Lemma safe_try_catch {A} (m : M A) (h : exn -> M A) :
  (forall e, safe (h e)) -> safe (try_catch m h).
Proof.
  intros Hh st. unfold try_catch.
  destruct (m st) as [[a|e] st']; [now exists a | apply Hh].
Qed.

Lemma safe_try_finally {A} (m : M A) (f : M unit) :
  safe m -> safe f -> safe (try_finally m f).
Proof.
  intros Hm Hf st. unfold try_finally.
  destruct (Hm st) as [a Ha]. destruct (m st) as [r st']. cbn in Ha. subst r.
  destruct (Hf st') as [[] Hu]. destruct (f st') as [r st'']. cbn in Hu. subst r.
  now exists a.
Qed.

Ltac safety :=
  cbv zeta;
  lazymatch goal with
  | |- safe (bind _ _) => apply safe_bind; [safety | intro; safety]
  | |- safe (try_catch _ _) => apply safe_try_catch; intro; safety
  | |- safe (try_finally _ _) => apply safe_try_finally; [safety | safety]
  | |- safe (ret _) => apply safe_ret
  | |- safe (gets _) => apply safe_gets
  | |- safe (modify _) => apply safe_modify
  | |- safe (match ?x with _ => _ end) => destruct x; safety
  | |- safe ?m => let h := head_of m in unfold h; safety
  end.

Lemma resume_safe (k : cont) (c : completion) (m : M unit) :
  resume k c = Some m -> safe m.
Proof.
  destruct k, c; cbn; try discriminate; intros [= <-]; safety.
Qed.

Lemma handler_safe (ev : event) (st : state) (m : M unit) :
  handler ev st = Some m -> safe m.
Proof.
  destruct ev; cbn.
  - destruct (interval st); [|discriminate]. intros [= <-]. safety.
  - destruct (lookup id (timeouts st)); [|discriminate]. intros [= <-]. safety.
  - destruct (isCallActive st); [|discriminate]. intros [= <-]. safety.
  - destruct (isCallActive st); [|discriminate]. intros [= <-]. safety.
  - intros [= <-]. safety.
  - intros [= <-]. safety.
  - destruct (lookup id (tasks st)) as [k|]; [|discriminate].
    destruct (resume k c) as [m'|] eqn:Hr; [|discriminate].
    intros [= <-]. apply safe_bind; [apply safe_modify|].
    intros _. eapply resume_safe; eauto.
  - destruct (mediaRecorderRef st) as [[| |]|]; try discriminate;
      intros [= <-]; safety.
Qed.

Lemma clean_refl s : clean s s.
Proof. reflexivity. Qed.

Lemma clean_trans a b c : clean a b -> clean b c -> clean a c.
Proof. unfold clean; congruence. Qed.

Lemma uncaught_snoc (tr : list effect) (e : effect) :
  uncaught (tr ++ [e]) = uncaught tr ++ uncaught_of e.
Proof. rewrite uncaught_app. cbn. now rewrite app_nil_r. Qed.

Arguments uncaught : simpl never.

Ltac clean_leaf :=
  unfold clean; cbn;
  repeat rewrite uncaught_snoc; cbn;
  repeat rewrite app_nil_r;
  auto;
  match goal with
  | |- context [if ?b then _ else _] => destruct b; cbn; auto
  end.

Lemma resume_clean (k : cont) (c : completion) (m : M unit) :
  resume k c = Some m -> keeps clean m.
Proof.
  pose proof clean_refl; pose proof clean_trans.
  destruct k, c; cbn; try discriminate; intros [= <-]; frame clean_leaf.
Qed.

Lemma handler_clean (ev : event) (st : state) (m : M unit) :
  handler ev st = Some m -> keeps clean m.
Proof.
  pose proof clean_refl; pose proof clean_trans.
  destruct ev; cbn.
  - destruct (interval st); [|discriminate]. intros [= <-]. frame clean_leaf.
  - destruct (lookup id (timeouts st)); [|discriminate].
    intros [= <-]. frame clean_leaf.
  - destruct (isCallActive st); [|discriminate]. intros [= <-]. frame clean_leaf.
  - destruct (isCallActive st); [|discriminate]. intros [= <-]. frame clean_leaf.
  - intros [= <-]. frame clean_leaf.
  - intros [= <-]. frame clean_leaf.
  - destruct (lookup id (tasks st)) as [k|] eqn:Hk; [|discriminate].
    destruct (resume k c) as [m'|] eqn:Hr; [|discriminate].
    intros [= <-].
    apply (keeps_bind clean clean_trans).
    + apply keeps_modify. intro; clean_leaf.
    + intros _. eapply resume_clean; eauto.
  - destruct (mediaRecorderRef st) as [[| |]|]; try discriminate;
      intros [= <-]; frame clean_leaf.
Qed.

(** Every exception is caught inside the handler that raised it. *)
Lemma step_uncaught (ev : event) (st : state) :
  uncaught (trace (step ev st)) = uncaught (trace st).
Proof.
  unfold step, report. destruct (handler ev st) as [m|] eqn:Hh; [|reflexivity].
  destruct (handler_safe ev st m Hh st) as [a Ha].
  pose proof (handler_clean ev st m Hh st) as Hc.
  destruct (m st) as [r st']. cbn in Ha, Hc. subst r. exact Hc.
Qed.

Lemma run_uncaught (evs : list event) (st : state) :
  uncaught (trace (run evs st)) = uncaught (trace st).
Proof.
  revert st. induction evs as [|ev evs IH]; intros st; [reflexivity|].
  change (run (ev :: evs) st) with (run evs (step ev st)).
  now rewrite IH, step_uncaught.
Qed.

(* ================================================================== *)
(** ** Recording sessions *)

Lemma skipn_length_app {A} (a b : list A) : skipn (List.length a) (a ++ b) = b.
Proof. induction a; cbn; auto. Qed.




Lemma with_chunksRef_same (st : state) :
  with_chunksRef (chunksRef st) st = st.
Proof. now destruct st. Qed.

(** C9.  A fragment that is [null] or of size zero changes nothing at all:
    it is not uploaded and not added to the chunk buffer.  And when the
    recorder stops while the chunk buffer is empty, the state (trace
    included) is left as it was: no final upload request is issued. *)
Theorem C9_blank_fragment_and_empty_stop
    (st st' : state) (data : option blob) :
  blank data ->
  chunksRef st' = [] ->
  step (DataAvailable data) st = st
  /\ step RecorderStopped st' = st'.
Proof.
  intros Hb He. split.
  - destruct Hb as [-> | (c & -> & Hc)].
    + reflexivity.
    + unfold_handlers; cbn. apply Nat.eqb_eq in Hc. now rewrite Hc.
  - unfold_handlers; cbn. rewrite He. cbn.
    rewrite <- He. apply with_chunksRef_same.
Qed.

Lemma C9_blank_fragment_and_empty_stop_witness :
  step (DataAvailable (Some [])) recording_state = recording_state
  /\ step RecorderStopped recording_state = recording_state.
Proof.
  apply (C9_blank_fragment_and_empty_stop recording_state recording_state (Some [])).
  - right. exists []. split; reflexivity.
  - reflexivity.
Defined.

(** C4.  When the upload of a timed fragment fails (the fetch rejects or the
    status is not 2xx), the handler resumes, logs, and ends: the trace grows
    by one console line only (no request, nothing uncaught), the task is
    gone and nothing else is pending in its place, and the buffer and the
    response text are untouched.  From then on, whatever happens, every
    non-empty fragment delivered is still uploaded as [chunk.webm], once, and
    nothing else is: the failed fragment is never sent again under that
    name; and no exception is ever reported as uncaught. *)
Theorem C4_failed_chunk_upload
    (st : state) (id : nat) (r : fetch_result) :
  lookup id (tasks st) = Some KChunkUpload ->
  transport_failed r ->
  let st' := step (Settle id (Fetched r)) st in
  (exists l msg, trace st' = trace st ++ [EConsole l msg])
  /\ tasks st' = remove id (tasks st)
  /\ chunksRef st' = chunksRef st
  /\ response st' = response st
  /\ forall evs,
       chunk_uploads (trace (run evs st'))
       = chunk_uploads (trace st) ++ map chunk_request (fragments evs)
       /\ uncaught (trace (run evs st')) = uncaught (trace st).
Proof.
  intros Hk Hf st'.
  assert (Hst : exists l msg,
             st' = with_trace (trace st ++ [EConsole l msg])
                     (with_tasks (remove id (tasks st)) st)).
  { subst st'. unfold step, handler. rewrite Hk. cbn [resume].
    destruct Hf as [-> | (res & -> & Hres)];
      unfold_handlers; cbn; rewrite ?Hres; cbn; eauto. }
  destruct Hst as (l & msg & Hst).
  split; [exists l, msg; now rewrite Hst|].
  split; [now rewrite Hst|].
  split; [now rewrite Hst|].
  split; [now rewrite Hst|].
  intros evs. rewrite chunk_uploads_run, run_uncaught, Hst.
  cbn [trace with_trace].
  rewrite chunk_uploads_snoc, uncaught_snoc. cbn.
  now rewrite !app_nil_r.
Qed.

Lemma C4_failed_chunk_upload_witness :
  let st := step (DataAvailable (Some ["001"%byte])) recording_state in
  let st' := step (Settle 3 (Fetched (Resp {| status := 500; body := None |}))) st in
  trace st' = trace st ++ [EConsole LWarn "chunk upload failed"]
  /\ chunk_uploads (trace (run [DataAvailable (Some ["002"%byte])] st'))
     = [chunk_request ["001"%byte]; chunk_request ["002"%byte]].
Proof.
  intros st st'.
  destruct (C4_failed_chunk_upload st 3
              (Resp {| status := 500; body := None |}) eq_refl) as (_ & _ & _ & _ & H).
  - right. eexists. split; reflexivity.
  - split; [reflexivity|].
    exact (proj1 (H [DataAvailable (Some ["002"%byte])])).
Defined.

(** A session that starts with an empty buffer while no finalize is in
    flight uploads each of its fragments and then all of them together. *)
Lemma fresh_session_uploads (st : state) (evs : list event) :
  chunksRef st = [] ->
  finalize_idle st = true ->
  capturing evs = true ->
  session_uploads st evs
  = map chunk_request (fragments evs) ++ final_upload_for (fragments evs).
Proof.
  intros Hb Hi Hc. unfold session_uploads. rewrite run_app. cbn [run fold_left].
  destruct (capture_run evs st Hc Hi) as (H1 & H2 & _).
  rewrite stop_step, H1, H2, Hb. cbn [app].
  now rewrite <- app_assoc, skipn_length_app.
Qed.

(** An empty buffer stays empty as long as no fragment arrives. *)
Lemma buffer_stays_empty (evs : list event) (st : state) :
  chunksRef st = [] -> fragments evs = [] -> chunksRef (run evs st) = [].
Proof.
  intros Hb Hf. destruct (buffer_run evs st) as [gone Hg].
  rewrite Hb, Hf in Hg. cbn in Hg. symmetry in Hg.
  now apply app_eq_nil in Hg.
Qed.

(** Every way in which a suspended finalize step runs to its end leaves the
    buffer empty. *)
Lemma finalize_clears (st : state) (id : nat) (k : cont) (c : completion) :
  lookup id (tasks st) = Some k ->
  finalize_done k c ->
  chunksRef (step (Settle id c) st) = [].
Proof.
  intros Hk Hd. unfold step, handler. rewrite Hk.
  destruct Hd as [|res H1|res H1 H2|res data H1 H2 H3|res data H1 H2 H3 H4
                  |res data H1 H2 H3 H4|res data H1 H2 H3 H4|ok];
    cbn [resume]; unfold_handlers; cbn; rewrite ?H1; cbn; rewrite ?H2; cbn;
    rewrite ?H3; cbn; try reflexivity.
  - destruct (truthy (own data "reply")); cbn;
      [destruct (js_String (own data "reply")); cbn|];
      rewrite ?H4; reflexivity.
  - unfold rendered in H4.
    destruct (truthy (own data "reply")); [|discriminate].
    destruct (js_String (own data "reply")); [discriminate|]. reflexivity.
  - unfold rendered in H4.
    destruct (truthy (own data "audio_url")); [|discriminate].
    destruct (js_String (own data "audio_url")); [discriminate|].
    destruct (truthy (own data "reply")); cbn;
      [destruct (js_String (own data "reply")); cbn|]; reflexivity.
  - destruct ok; reflexivity.
Qed.

(** C10 (amended).  When a suspended finalize step runs to its end, whether
    its upload succeeded, came back non-2xx or threw, the chunk buffer is
    empty afterwards.  A later session that starts with no finalize step in
    flight, no fragment having arrived since that completion, makes a final
    upload that carries the fragments captured in that session and nothing
    else.  In general, whatever is captured after the completion, the final
    upload made at the next stop carries only fragments captured since: the
    fragments delivered since split into some that are gone and the rest, and
    the rest, in order, is the payload. *)
Theorem C10_buffer_cleared_after_finalize
    (st : state) (id : nat) (k : cont) (c : completion)
    (between session evs : list event) :
  lookup id (tasks st) = Some k ->
  finalize_done k c ->
  let st1 := step (Settle id c) st in
  let st2 := run between st1 in
  chunksRef st1 = []
  /\ (fragments between = [] ->
      finalize_idle st2 = true ->
      capturing session = true ->
      session_uploads st2 session
      = map chunk_request (fragments session)
        ++ final_upload_for (fragments session))
  /\ exists gone kept,
       fragments evs = gone ++ kept
       /\ upload_requests (trace (run (evs ++ [RecorderStopped]) st1))
          = upload_requests (trace (run evs st1)) ++ final_upload_for kept.
Proof.
  intros Hk Hd st1 st2.
  assert (Hc : chunksRef st1 = []) by now apply finalize_clears with (k := k).
  split; [exact Hc|]. split.
  - intros Hf Hi Hs. apply fresh_session_uploads; auto.
    now apply buffer_stays_empty.
  - destruct (buffer_run evs st1) as [gone Hg]. rewrite Hc in Hg. cbn in Hg.
    exists gone, (chunksRef (run evs st1)). split; [exact Hg|].
    rewrite run_app. cbn [run fold_left]. apply stop_step.
Qed.

Lemma C10_buffer_cleared_after_finalize_witness :
  let failed := Fetched (Resp {| status := 503; body := None |}) in
  let st1 := step (Settle 4 failed) first_finalizing_state in
  let between := [ClickRecord; Settle 5 (Fetched (ok_with (JObj [])));
                  Settle 6 (Media true)] in
  let session := [DataAvailable (Some ["007"%byte])] in
  let st2 := run between st1 in
  chunksRef st1 = []
  /\ session_uploads st2 session
     = [chunk_request ["007"%byte]; final_request ["007"%byte]].
Proof.
  intros failed st1 between session st2.
  destruct (C10_buffer_cleared_after_finalize first_finalizing_state 4
              KFinalUpload failed between session [] eq_refl)
    as (H1 & H2 & _).
  - apply done_not_ok. reflexivity.
  - split; [exact H1|]. apply H2; reflexivity.
Defined.

(** C10 as stated fails when sessions overlap.  The first session's
    finalize step has completed and emptied the buffer; a second session of
    one fragment is then recorded and stopped, and a third is started while
    the second's final upload is still in flight.  The third session
    captures one fragment, and its final upload carries the second
    session's fragment in front of it. *)
Lemma C10_counterexample :
  let done := Fetched (ok_with (JObj [])) in
  let st1 := step (Settle 4 done) first_finalizing_state in
  let st3 := run second_session_then_third st1 in
  let session := [DataAvailable (Some ["003"%byte]); ClickRecord] in
  lookup 4 (tasks first_finalizing_state) = Some KFinalUpload
  /\ chunksRef first_finalizing_state = [["001"%byte]]
  /\ chunksRef st1 = []
  /\ finalize_idle st1 = true
  /\ finalize_idle st3 = false
  /\ fragments session = [["003"%byte]]
  /\ capturing session = true
  /\ session_uploads st3 session
     = [chunk_request ["003"%byte]; final_request ["002"%byte; "003"%byte]]
  /\ session_uploads st3 session
     <> map chunk_request (fragments session)
        ++ final_upload_for (fragments session).
Proof.
  cbv zeta. repeat split; try reflexivity. vm_compute. discriminate.
Qed.

(* ================================================================== *)
(** ** Polling *)

(** The interval fires: the poll request goes out. *)
Lemma tick_step (st : state) (period : Z) :
  interval st = Some period ->
  step Tick st
  = with_next_id (S (next_id st))
      (with_tasks ((next_id st, KPoll) :: tasks st)
         (with_trace (trace st ++ [EFetch poll_request]) st)).
Proof.
  intros Hi. unfold step, handler. rewrite Hi. reflexivity.
Qed.

(** The reply text of a body, field by field. *)
Lemma latest_reply_last_response (data : jsval) (s : string) :
  own data "last_response" = JStr s -> s <> "" -> latest_reply data = JStr s.
Proof.
  intros H Hne. unfold latest_reply, js_or. rewrite H. cbn.
  destruct s; [congruence | reflexivity].
Qed.

Lemma latest_reply_none (data : jsval) :
  truthy (own data "last_response") = false ->
  truthy (own data "reply") = false ->
  latest_reply data = JStr "".
Proof.
  intros H1 H2. unfold latest_reply, js_or. now rewrite H1, H2.
Qed.

Lemma latest_reply_object (data : jsval) (s : string) :
  latest_reply data = JStr s -> s <> "" -> nullish data = false.
Proof.
  destruct data; cbn; auto; intros [= <-]; congruence.
Qed.

(** The poll continuation on a 2xx response with a readable body, up to the
    test of line 24. *)
Lemma poll_resume_body (res : http_response) (data : jsval) :
  res_ok res = true ->
  body res = Some data ->
  nullish data = false ->
  poll_resume (Resp res)
  = try_catch
      (if truthy (latest_reply data) then
         text <- StringM (latest_reply data) ;;
         setResponse text ;;
         setIsAISpeaking true ;;
         setTimeout 1800
       else ret tt)
      (fun _ => console LError "Polling error:").
Proof.
  intros Hok Hb Hn. unfold poll_resume, settled.
  rewrite bind_ret, Hok. cbn [negb].
  unfold res_json. rewrite Hb, bind_ret.
  rewrite (js_get_ok data "last_response" Hn), bind_ret.
  rewrite (orM_get _ data "reply" Hn), bind_ret.
  reflexivity.
Qed.

(** A poll comes back with a non-empty reply text. *)
Lemma poll_reply_step
    (st : state) (id : nat) (res : http_response) (data : jsval) (s : string) :
  lookup id (tasks st) = Some KPoll ->
  isCallActive st = true ->
  res_ok res = true ->
  body res = Some data ->
  latest_reply data = JStr s ->
  s <> "" ->
  step (Settle id (Fetched (Resp res))) st
  = with_next_id (S (next_id st))
      (with_timeouts ((next_id st, 1800%Z) :: timeouts st)
         (with_trace (trace st ++ [ESetResponse s; ESetIsAISpeaking true;
                                   ESetTimeout (next_id st) 1800])
            (with_isAISpeaking true
               (with_response s
                  (with_tasks (remove id (tasks st)) st))))).
Proof.
  intros Hk Hm Hok Hb Hs Hne.
  pose proof (latest_reply_object data s Hs Hne) as Hn.
  assert (Ht : nonempty s = true) by (destruct s; [congruence | reflexivity]).
  rewrite (settle_step st id KPoll (Fetched (Resp res)) _ Hk eq_refl).
  rewrite (poll_resume_body res data Hok Hb Hn), Hs. cbn [truthy].
  rewrite Ht. unfold_handlers; cbn.
  repeat (progress (rewrite ?Hm; cbn)).
  apply state_ext; cbn; repeat split; auto.
  now rewrite <- !app_assoc.
Qed.

(** A poll comes back without a reply text. *)
Lemma poll_silent_step
    (st : state) (id : nat) (res : http_response) (data : jsval) :
  lookup id (tasks st) = Some KPoll ->
  res_ok res = true ->
  body res = Some data ->
  latest_reply data = JStr "" ->
  step (Settle id (Fetched (Resp res))) st
  = with_trace (trace st ++ if nullish data
                            then [EConsole LError "Polling error:"] else [])
      (with_tasks (remove id (tasks st)) st).
Proof.
  intros Hk Hok Hb Hs.
  rewrite (settle_step st id KPoll (Fetched (Resp res)) _ Hk eq_refl).
  destruct (nullish data) eqn:Hn.
  - unfold_handlers; cbn. rewrite Hok, Hb; cbn. now rewrite Hn.
  - rewrite (poll_resume_body res data Hok Hb Hn), Hs. cbn.
    apply state_ext; cbn; repeat split; auto.
    now rewrite app_nil_r.
Qed.

(** A pending timer fires while the interface is mounted. *)
Lemma timeout_step (st : state) (id : nat) (d : Z) :
  lookup id (timeouts st) = Some d ->
  isCallActive st = true ->
  step (Timeout id) st
  = with_isAISpeaking false
      (with_trace (trace st ++ [ESetIsAISpeaking false])
         (with_timeouts (remove id (timeouts st)) st)).
Proof.
  intros Hk Hm. unfold_handlers; cbn. rewrite Hk; cbn. rewrite Hm. reflexivity.
Qed.

(** C2.  When a poll comes back 2xx with a body whose reply text is a
    non-empty string [s], the mounted component shows [s], raises the
    speaking indicator, and leaves one new timer pending whose delay lies
    between 1.8 and 2.0 seconds and whose firing lowers the indicator.  When
    the body carries no reply text, the response text, the indicator and the
    timers stay as they were and no setter is called.  The reply text is the
    [last_response] field when that is a non-empty string, and it is missing
    when [last_response] and [reply] are both empty or absent. *)
Theorem C2_poll_reply
    (st : state) (id : nat) (res : http_response) (data : jsval) :
  lookup id (tasks st) = Some KPoll ->
  isCallActive st = true ->
  res_ok res = true ->
  body res = Some data ->
  let st' := step (Settle id (Fetched (Resp res))) st in
  (forall s, latest_reply data = JStr s -> s <> "" ->
     response st' = s
     /\ isAISpeaking st' = true
     /\ (exists d, timeouts st' = (next_id st, d) :: timeouts st
                   /\ (1800 <= d <= 2000)%Z)
     /\ isAISpeaking (step (Timeout (next_id st)) st') = false
     /\ trace st' = trace st ++ [ESetResponse s; ESetIsAISpeaking true;
                                 ESetTimeout (next_id st) 1800])
  /\ (latest_reply data = JStr "" ->
      response st' = response st
      /\ isAISpeaking st' = isAISpeaking st
      /\ timeouts st' = timeouts st
      /\ (trace st' = trace st
          \/ trace st' = trace st ++ [EConsole LError "Polling error:"]))
  /\ (forall s, own data "last_response" = JStr s -> s <> "" ->
       latest_reply data = JStr s)
  /\ (truthy (own data "last_response") = false ->
      truthy (own data "reply") = false ->
      latest_reply data = JStr "").
Proof.
  intros Hk Hm Hok Hb st'. subst st'. repeat split.
  1-5: rewrite (poll_reply_step st id res data s Hk Hm Hok Hb) by assumption.
  - reflexivity.
  - reflexivity.
  - exists 1800%Z. split; [reflexivity | lia].
  - rewrite (timeout_step _ (next_id st) 1800%Z);
      [reflexivity | cbn; now rewrite Nat.eqb_refl | exact Hm].
  - reflexivity.
  - now rewrite (poll_silent_step st id res data Hk Hok Hb).
  - now rewrite (poll_silent_step st id res data Hk Hok Hb).
  - now rewrite (poll_silent_step st id res data Hk Hok Hb).
  - rewrite (poll_silent_step st id res data Hk Hok Hb) by assumption.
    cbn. destruct (nullish data); [now right | left; apply app_nil_r].
  - apply latest_reply_last_response.
  - apply latest_reply_none.
Qed.

Lemma C2_poll_reply_witness :
  let st := step Tick (mount no_parse None) in
  let st' := step (Settle 1 (Fetched (ok_with
               (JObj [("last_response", JStr "Help is on the way.")])))) st in
  response st' = "Help is on the way."
  /\ isAISpeaking st' = true
  /\ isAISpeaking (step (Timeout 2) st') = false.
Proof.
  intros st st'.
  destruct (C2_poll_reply st 1
              {| status := 200;
                 body := Some (JObj [("last_response", JStr "Help is on the way.")]) |}
              (JObj [("last_response", JStr "Help is on the way.")])
              eq_refl eq_refl eq_refl eq_refl) as [H _].
  destruct (H "Help is on the way." eq_refl) as (H1 & H2 & _ & H4 & _).
  - discriminate.
  - exact (conj H1 (conj H2 H4)).
Defined.

(** C3.  When a poll fails (the fetch rejects or the status is not 2xx) the
    tick ends there: at most a console line is written and nothing is left
    uncaught, nothing but the task table and the log changes, the interval is
    still set, and its next tick sends the poll request again. *)
Theorem C3_failed_poll
    (st : state) (id : nat) (r : fetch_result) (period : Z) :
  lookup id (tasks st) = Some KPoll ->
  transport_failed r ->
  interval st = Some period ->
  let st' := step (Settle id (Fetched r)) st in
  (trace st' = trace st
   \/ trace st' = trace st ++ [EConsole LError "Polling error:"])
  /\ uncaught (trace st') = uncaught (trace st)
  /\ st' = with_trace (trace st') (with_tasks (remove id (tasks st)) st)
  /\ interval st' = Some period
  /\ trace (step Tick st') = trace st' ++ [EFetch poll_request]
  /\ lookup (next_id st') (tasks (step Tick st')) = Some KPoll.
Proof.
  intros Hk Hf Hi st'.
  split; [|split; [apply step_uncaught|]]; subst st'.
  all: destruct Hf as [-> | (res & -> & Hres)].
  all: unfold_handlers; cbn.
  all: repeat (progress (rewrite ?Hk, ?Hres, ?Hi, ?Nat.eqb_refl; cbn)).
  all: repeat split; auto.
Qed.

Lemma C3_failed_poll_witness :
  let st := step Tick (mount no_parse None) in
  let st' := step (Settle 1 (Fetched NetworkError)) st in
  trace st' = trace st ++ [EConsole LError "Polling error:"]
  /\ interval st' = Some 2500%Z
  /\ trace (step Tick st') = trace st' ++ [EFetch poll_request].
Proof.
  intros st st'.
  destruct (C3_failed_poll st 1 NetworkError 2500 eq_refl (or_introl eq_refl) eq_refl)
    as (_ & _ & _ & H3 & H4 & _).
  split; [reflexivity|]. exact (conj H3 H4).
Defined.

(** C8.  Two polls in a row that return the same non-empty reply text each
    call the response setter, raise the speaking indicator and arm a timer
    of their own: nothing compares the text with the one already shown.  The
    indicator is raised again even when the first timer has lowered it in
    between. *)
Theorem C8_repeated_reply
    (st : state) (res : http_response) (data : jsval) (s : string) (period : Z) :
  interval st = Some period ->
  isCallActive st = true ->
  res_ok res = true ->
  body res = Some data ->
  own data "last_response" = JStr s ->
  s <> "" ->
  let n := next_id st in
  let reply i := Settle i (Fetched (Resp res)) in
  let st1 := run [Tick; reply n] st in
  let st2 := run [Tick; reply (S (S n))] st1 in
  trace st2
  = trace st
    ++ [EFetch poll_request;
        ESetResponse s; ESetIsAISpeaking true; ESetTimeout (S n) 1800;
        EFetch poll_request;
        ESetResponse s; ESetIsAISpeaking true; ESetTimeout (S (S (S n))) 1800]
  /\ response st1 = s /\ isAISpeaking st1 = true
  /\ response st2 = s /\ isAISpeaking st2 = true
  /\ timeouts st2 = (S (S (S n)), 1800%Z) :: (S n, 1800%Z) :: timeouts st
  /\ isAISpeaking (step (Timeout (S n)) st1) = false
  /\ isAISpeaking (run [Timeout (S n); Tick; reply (S (S n))] st1) = true.
Proof.
  intros Hi Hm Hok Hb Hs Hne n reply st1 st2.
  apply latest_reply_last_response in Hs; [|exact Hne].
  subst st2 st1 reply n. unfold run; cbn [fold_left].
  rewrite (tick_step st period Hi).
  rewrite (poll_reply_step _ (next_id st) res data s);
    cbn; rewrite ?Nat.eqb_refl; auto.
  erewrite (timeout_step _ (S (next_id st)));
    [| cbn; rewrite ?Nat.eqb_refl; reflexivity | exact Hm].
  erewrite !tick_step by (cbn; exact Hi).
  rewrite !(poll_reply_step _ (S (S (next_id st))) res data s);
    cbn; rewrite ?Nat.eqb_refl; auto.
  repeat split; auto.
  now rewrite <- !app_assoc.
Qed.

Lemma C8_repeated_reply_witness :
  let st := mount no_parse None in
  let text := "Stay calm, help is on the way." in
  let data := JObj [("last_response", JStr text)] in
  let res := {| status := 200; body := Some data |} in
  let n := next_id st in
  let reply i := Settle i (Fetched (Resp res)) in
  let st1 := run [Tick; reply n] st in
  let st2 := run [Tick; reply (S (S n))] st1 in
  trace st2
  = trace st
    ++ [EFetch poll_request;
        ESetResponse text; ESetIsAISpeaking true; ESetTimeout (S n) 1800;
        EFetch poll_request;
        ESetResponse text; ESetIsAISpeaking true; ESetTimeout (S (S (S n))) 1800].
Proof.
  intros st text data res n reply st1 st2.
  assert (Hne : text <> "") by discriminate.
  exact (proj1 (C8_repeated_reply st res data text 2500
                  eq_refl eq_refl eq_refl eq_refl eq_refl Hne)).
Defined.

(* ================================================================== *)
(** ** Ending the call *)

(** C7 (amended).  Pressing End Call sends the stop-listening request and
    waits for it to settle; however it settles, the interface is then taken
    off the page and the polling interval cleared, with a console line first
    when the request was rejected.  The recorder is not involved: the
    recorder reference and the recording flag are as they were before. *)
Theorem C7_end_call (st : state) (r : fetch_result) :
  isCallActive st = true ->
  let st1 := step ClickEnd st in
  let st2 := step (Settle (next_id st) (Fetched r)) st1 in
  trace st1 = trace st ++ [EFetch stop_listening_request]
  /\ isCallActive st1 = true
  /\ trace st2
     = trace st1
       ++ match r with
          | NetworkError => [EConsole LError ""]
          | Resp _ => []
          end
       ++ [EScrollTop; EClearInterval]
  /\ isCallActive st2 = false
  /\ interval st2 = None
  /\ mediaRecorderRef st2 = mediaRecorderRef st
  /\ isRecording st2 = isRecording st.
Proof.
  intros Hm st1 st2. subst st2 st1.
  unfold_handlers; cbn.
  repeat (progress (rewrite ?Hm, ?Nat.eqb_refl; cbn)).
  destruct r; cbn; rewrite Hm; cbn; repeat split; auto;
    now rewrite <- !app_assoc.
Qed.

Lemma C7_end_call_witness :
  let st2 := run [ClickEnd; Settle 3 (Fetched NetworkError)] recording_state in
  isCallActive st2 = false /\ interval st2 = None.
Proof.
  intros st2.
  destruct (C7_end_call recording_state NetworkError eq_refl)
    as (_ & _ & _ & H4 & H5 & _).
  exact (conj H4 H5).
Defined.

(** C7 as stated fails: ending a call during which the recorder is running
    leaves it running.  No [stop()] is sent to the recorder, the recorder
    reference still says it is recording, and a fragment it delivers
    afterwards is still uploaded. *)
Lemma C7_counterexample :
  let st2 := run [ClickEnd; Settle 3 (Fetched NetworkError)] recording_state in
  mediaRecorderRef recording_state = Some Recording
  /\ isCallActive st2 = false
  /\ mediaRecorderRef st2 = Some Recording
  /\ ~ In ERecorderStop (trace st2)
  /\ upload_requests (trace (step (DataAvailable (Some ["001"%byte])) st2))
     = upload_requests (trace st2) ++ [chunk_request ["001"%byte]].
Proof.
  cbv zeta. repeat split; try reflexivity.
  vm_compute. intuition discriminate.
Qed.

(* ================================================================== *)
(** ** Location *)

Arguments js_or : simpl never.
Arguments city_of : simpl never.
Arguments region_of : simpl never.
Arguments country_of : simpl never.

Ltac unfold_location :=
  cbv beta iota delta
    [mount location_effect location_from_cache json_parse];
  unfold_handlers.

(** C5 (amended).  When the session cache holds a geolocation record in
    which at least one of city, region and country is non-empty, the
    location shown right after mount is these fields, the non-empty ones
    only, in that order, joined by a comma and a space; and no remote lookup
    is made.  In particular a record with only city and country populated
    shows ["{city}, {country}"]. *)
Theorem C5_cached_location
    (JSON_parse : string -> option jsval)
    (raw : string) (info : jsval) (city region country : string) :
  nonempty raw = true ->
  JSON_parse raw = Some info ->
  nullish info = false ->
  let geo := js_or (own info "geolocation") info in
  city_of geo = JStr city ->
  region_of geo = JStr region ->
  country_of geo = JStr country ->
  nonempty city || nonempty region || nonempty country = true ->
  let st := mount JSON_parse (Some raw) in
  ipLocation st = JStr (location_text city region country)
  /\ tasks st = []
  /\ trace st = [ESetInterval 2500;
                 ESetIpLocation (JStr (location_text city region country))]
  /\ (nonempty city = true -> region = "" -> nonempty country = true ->
      ipLocation st = JStr (city ++ ", " ++ country)%string).
Proof.
  intros Hraw Hparse Hn geo Hc Hr Hk Hsome st. subst st geo.
  unfold_location; cbn.
  rewrite Hraw, Hparse; cbn. rewrite Hn; cbn. rewrite Hc, Hr, Hk; cbn.
  destruct city, region, country; cbn in *; try discriminate;
    repeat split; try reflexivity; intros; discriminate.
Qed.

Lemma C5_cached_location_witness :
  let parse := fun _ : string =>
    Some (JObj [("city", JStr "Amherst"); ("region", JStr "");
                ("country", JStr "US")]) in
  ipLocation (mount parse (Some "{...}")) = JStr "Amherst, US".
Proof.
  intros parse.
  exact (proj1 (C5_cached_location parse "{...}"
                  (JObj [("city", JStr "Amherst"); ("region", JStr "");
                         ("country", JStr "US")])
                  "Amherst" "" "US"
                  eq_refl eq_refl eq_refl eq_refl eq_refl eq_refl eq_refl)).
Defined.

(** C5 as stated fails for a cached record with no non-empty field: the
    join of its non-empty values is the empty string, but the component keeps
    its placeholder, makes the remote lookup, and shows what that yields. *)
Lemma C5_counterexample :
  let parse := fun _ : string => Some (JObj []) in
  let geo := js_or (own (JObj []) "geolocation") (JObj []) in
  let st := mount parse (Some "{}") in
  city_of geo = JStr "" /\ region_of geo = JStr "" /\ country_of geo = JStr ""
  /\ ipLocation st = JStr "Fetching location..."
  /\ ipLocation st <> JStr (location_text "" "" "")
  /\ trace st = [ESetInterval 2500; EFetch get_ip_request]
  /\ ipLocation (step (Settle 0 (Fetched NetworkError)) st)
     = JStr "Location unavailable".
Proof.
  cbv zeta. repeat split; try reflexivity. discriminate.
Qed.

(** Mounting either shows a text taken from the cache and asks nothing of
    the backend, or asks for the remote lookup exactly as with no cache. *)
Lemma mount_cache_or_lookup
    (JSON_parse : string -> option jsval) (raw : option string) :
  mount JSON_parse raw = mount JSON_parse None
  \/ exists text,
       ipLocation (mount JSON_parse raw) = JStr text
       /\ trace (mount JSON_parse raw)
          = [ESetInterval 2500; ESetIpLocation (JStr text)]
       /\ tasks (mount JSON_parse raw) = [].
Proof.
  destruct raw as [text|]; [|now left].
  unfold_location; cbn.
  repeat (split_match; cbn);
    solve [ now left | right; eexists; repeat split; reflexivity ].
Qed.

(** C6 (amended).  With nothing cached, mounting issues the remote lookup,
    and however it settles no exception is left uncaught.  If the lookup
    fails, the location shown is the fixed text "Location unavailable".  If
    it succeeds, the location is the joined descriptive fields when there is
    one, or that same fixed text when joining them throws because one of
    them cannot be converted to text; with none, it is the public IP when
    the payload carries a non-empty one, and otherwise the text
    "Unknown location".  With a cache, mounting
    either behaves as with none or shows a cached text, and then no lookup
    is pending whose result could replace it. *)
Theorem C6_location_fallbacks
    (JSON_parse : string -> option jsval) (r : fetch_result) :
  let st0 := mount JSON_parse None in
  let st1 := step (Settle 0 (Fetched r)) st0 in
  trace st0 = [ESetInterval 2500; EFetch get_ip_request]
  /\ tasks st0 = [(0, KLocation)]
  /\ uncaught (trace st1) = []
  /\ (lookup_failed r -> ipLocation st1 = JStr "Location unavailable")
  /\ (forall res data,
        r = Resp res -> res_ok res = true -> body res = Some data ->
        nullish data = false ->
        let geo := remote_geo data in
        let parts := filter truthy [city_of geo; region_of geo; country_of geo] in
        ipLocation st1
        = match parts with
          | _ :: _ =>
              match js_join ", " parts with
              | Some text => JStr text
              | None => JStr "Location unavailable"
              end
          | [] => if truthy (remote_ip data) then remote_ip data
                  else JStr "Unknown location"
          end)
  /\ (forall raw,
        let st := mount JSON_parse raw in
        st = st0
        \/ exists text,
             ipLocation st = JStr text /\ tasks st = []
             /\ step (Settle 0 (Fetched r)) st = st).
Proof.
  intros st0 st1.
  assert (E0 : st0 = with_next_id 1
                       (with_tasks [(0, KLocation)]
                          (with_trace [ESetInterval 2500; EFetch get_ip_request]
                             (with_interval (Some 2500%Z) initial))))
    by reflexivity.
  assert (E1 : st1 = snd (location_resume r (with_tasks [] st0))).
  { assert (Hs : st1 = match location_resume r (with_tasks [] st0) with
                       | (Ok _, s) => s
                       | (Throw e, s) => with_trace (trace s ++ [EUncaught e]) s
                       end) by reflexivity.
    destruct (resume_safe KLocation (Fetched r) _ eq_refl
                (with_tasks [] st0)) as [a Ha].
    rewrite Hs. destruct (location_resume r (with_tasks [] st0)) as [res s].
    cbn in Ha. now subst res. }
  repeat split.
  - subst st1. rewrite step_uncaught. now rewrite E0.
  - intros Hf. rewrite E1, E0.
    destruct Hf as [-> | (res & -> & [Hres | [Hres | (data & Hres & Hn)]])].
    + reflexivity.
    + unfold_handlers; cbn. rewrite Hres. reflexivity.
    + unfold_handlers; cbn. rewrite Hres.
      destruct (res_ok res); reflexivity.
    + unfold_handlers; cbn. rewrite Hres.
      destruct (res_ok res); cbn; [|reflexivity]. rewrite Hn. reflexivity.
  - intros res data -> Hok Hb Hn geo parts. subst parts geo. rewrite E1, E0.
    unfold location_resume, settled. rewrite bind_ret, Hok. cbn [negb].
    unfold res_json. rewrite Hb, bind_ret.
    rewrite (js_get_ok data "geolocation" Hn), bind_ret.
    rewrite (orM_get _ data "location_info" Hn), bind_ret. cbv zeta.
    fold (remote_geo data).
    assert (Hg : nullish (remote_geo data) = false)
      by apply js_or_object_not_nullish.
    rewrite (js_get_ok _ "city" Hg), bind_ret.
    rewrite (orM_get _ _ "city_name" Hg), bind_ret.
    rewrite (js_get_ok _ "regionName" Hg), bind_ret.
    rewrite (orM_get _ _ "region" Hg), bind_ret.
    rewrite (js_get_ok _ "country" Hg), bind_ret.
    rewrite (js_get_ok data "public_ip" Hn), bind_ret.
    rewrite (orM_get _ data "ip" Hn), bind_ret.
    fold (remote_ip data).
    unfold city_of, region_of, country_of.
    rewrite !(js_get_opt_own _ _ Hg).
    match goal with
    | |- context [filter truthy ?l] => generalize (filter truthy l)
    end.
    intros parts. destruct parts as [|p ps].
    + unfold_handlers; cbn.
      unfold js_or at 1. now destruct (truthy (remote_ip data)).
    + unfold_handlers. destruct (js_join ", " (p :: ps)); reflexivity.
  - intros raw st.
    destruct (mount_cache_or_lookup JSON_parse raw) as [H | (text & H1 & H2 & H3)];
      [now left | right].
    exists text. repeat split; auto.
    subst st. unfold step, handler. now rewrite H3.
Qed.

Lemma C6_location_fallbacks_witness :
  let st0 := mount no_parse None in
  ipLocation (step (Settle 0 (Fetched NetworkError)) st0)
  = JStr "Location unavailable"
  /\ ipLocation (step (Settle 0 (Fetched (ok_with
                   (JObj [("public_ip", JStr "203.0.113.7")])))) st0)
     = JStr "203.0.113.7"
  /\ ipLocation (step (Settle 0 (Fetched (ok_with
                   (JObj [("geolocation",
                           JObj [("city", JObj [("toString", JStr "x")]);
                                 ("country", JStr "US")])])))) st0)
     = JStr "Location unavailable".
Proof.
  intros st0. split; [|split].
  - destruct (C6_location_fallbacks no_parse NetworkError)
      as (_ & _ & _ & H & _).
    apply H. now left.
  - destruct (C6_location_fallbacks no_parse
                (ok_with (JObj [("public_ip", JStr "203.0.113.7")])))
      as (_ & _ & _ & _ & H & _).
    exact (H _ (JObj [("public_ip", JStr "203.0.113.7")])
             eq_refl eq_refl eq_refl eq_refl).
  - destruct (C6_location_fallbacks no_parse
                (ok_with (JObj [("geolocation",
                                 JObj [("city", JObj [("toString", JStr "x")]);
                                       ("country", JStr "US")])])))
      as (_ & _ & _ & _ & H & _).
    exact (H _ (JObj [("geolocation",
                       JObj [("city", JObj [("toString", JStr "x")]);
                             ("country", JStr "US")])])
             eq_refl eq_refl eq_refl eq_refl).
Defined.

(** C6 as stated fails when the lookup succeeds with neither descriptive
    fields nor an IP: the location shown is then the text "Unknown location",
    which is neither the raw IP string of the payload nor the sentinel
    "Location unavailable". *)
Lemma C6_counterexample :
  let data := JObj [] in
  let st1 := step (Settle 0 (Fetched (ok_with data))) (mount no_parse None) in
  filter truthy [city_of (remote_geo data); region_of (remote_geo data);
                 country_of (remote_geo data)] = []
  /\ remote_ip data = JStr ""
  /\ ipLocation st1 = JStr "Unknown location"
  /\ ipLocation st1 <> remote_ip data
  /\ ipLocation st1 <> JStr "Location unavailable".
Proof.
  cbv zeta. repeat split; try reflexivity; vm_compute; discriminate.
Qed.

(* ================================================================== *)
(** ** Starting and stopping the recorder *)

(** Decide the comparisons of task identifiers left by a symbolic run. *)
Ltac decide_ids :=
  repeat match goal with
  | |- context [Nat.eqb ?a ?a] => rewrite (Nat.eqb_refl a)
  | |- context [Nat.eqb ?a ?b] =>
      rewrite (proj2 (Nat.eqb_neq a b)) by lia
  end.

(** The record button while the flag is down: [startRecording] up to its
    first [await]. *)
Lemma start_click_step (st : state) :
  isCallActive st = true ->
  isRecording st = false ->
  step ClickRecord st
  = with_next_id (S (next_id st))
      (with_tasks ((next_id st, KStartListening) :: tasks st)
         (with_trace (trace st ++ [EFetch start_listening_request]) st)).
Proof.
  intros Hm Hr. unfold step, handler. rewrite Hm.
  unfold record_button, report. unfold_handlers; cbn. rewrite Hr. reflexivity.
Qed.

(** [start_listening] settles: whatever the outcome, the microphone is asked
    for next. *)
Lemma start_listening_step (st : state) (id : nat) (r : fetch_result) :
  lookup id (tasks st) = Some KStartListening ->
  step (Settle id (Fetched r)) st
  = with_next_id (S (next_id st))
      (with_tasks ((next_id st, KGetUserMedia) :: remove id (tasks st))
         (with_trace
            (trace st
             ++ match r with
                | NetworkError => [EConsole LWarn "start_listening failed:"]
                | Resp _ => []
                end
             ++ [EGetUserMedia]) st)).
Proof.
  intros Hk. rewrite (settle_step st id KStartListening (Fetched r) _ Hk eq_refl).
  destruct r; unfold_handlers; cbn; apply state_ext; cbn; repeat split; auto.
  now rewrite <- app_assoc.
Qed.

(** The microphone is granted while the interface is mounted. *)
Lemma granted_step (st : state) (id : nat) :
  lookup id (tasks st) = Some KGetUserMedia ->
  isCallActive st = true ->
  step (Settle id (Media true)) st
  = with_isRecording true
      (with_mediaRecorderRef (Some Recording)
         (with_trace (trace st ++ [ERecorderStart 2500; ESetIsRecording true])
            (with_tasks (remove id (tasks st)) st))).
Proof.
  intros Hk Hm. rewrite (settle_step st id KGetUserMedia (Media true) _ Hk eq_refl).
  unfold_handlers; cbn. rewrite Hm.
  apply state_ext; cbn; repeat split; auto. now rewrite <- app_assoc.
Qed.

(** The microphone is refused. *)
Lemma denied_step (st : state) (id : nat) :
  lookup id (tasks st) = Some KGetUserMedia ->
  step (Settle id (Media false)) st
  = with_trace (trace st ++ [EConsole LError ""])
      (with_tasks (remove id (tasks st)) st).
Proof.
  intros Hk. rewrite (settle_step st id KGetUserMedia (Media false) _ Hk eq_refl).
  reflexivity.
Qed.

(** The record button while the flag is up: [stopRecording]. *)
Lemma stop_click_step (st : state) :
  isCallActive st = true ->
  isRecording st = true ->
  step ClickRecord st
  = with_isRecording false
      (match live st with
       | 0 => with_trace (trace st ++ [ESetIsRecording false]) st
       | _ => with_mediaRecorderRef (Some Inactive)
                (with_trace (trace st ++ [ERecorderStop; ESetIsRecording false]) st)
       end).
Proof.
  intros Hm Hr. unfold step, handler. rewrite Hm.
  unfold record_button, report, live. unfold_handlers; cbn. rewrite Hr; cbn.
  destruct (mediaRecorderRef st) as [[| |]|] eqn:E; cbn; rewrite ?Hm; cbn;
    apply state_ext; cbn; rewrite ?E; repeat split; auto;
    now rewrite <- app_assoc.
Qed.

(** X1.  A failing [start_listening] does not stop a recording from
    starting: when the request settles, rejected or answered with any
    status, the component goes on to ask for the microphone; only a
    rejection leaves a warning in the console, and neither the recorder nor
    the recording flag is touched yet. *)
Theorem start_listening_is_best_effort
    (st : state) (id : nat) (r : fetch_result) :
  lookup id (tasks st) = Some KStartListening ->
  let st' := step (Settle id (Fetched r)) st in
  trace st'
  = trace st
    ++ match r with
       | NetworkError => [EConsole LWarn "start_listening failed:"]
       | Resp _ => []
       end
    ++ [EGetUserMedia]
  /\ lookup (next_id st) (tasks st') = Some KGetUserMedia
  /\ mediaRecorderRef st' = mediaRecorderRef st
  /\ isRecording st' = isRecording st.
Proof.
  intros Hk st'. subst st'. rewrite (start_listening_step st id r Hk). cbn.
  rewrite Nat.eqb_refl. auto.
Qed.

Lemma start_listening_is_best_effort_witness :
  let st := step ClickRecord (mount no_parse None) in
  let st' := step (Settle 1 (Fetched NetworkError)) st in
  trace st'
  = trace st ++ [EConsole LWarn "start_listening failed:"] ++ [EGetUserMedia]
  /\ lookup (next_id st) (tasks st') = Some KGetUserMedia
  /\ mediaRecorderRef st' = mediaRecorderRef st
  /\ isRecording st' = isRecording st.
Proof.
  intros st st'.
  exact (start_listening_is_best_effort st 1 NetworkError eq_refl).
Defined.

(** X2.  What the answer to the microphone request does on the mounted
    component.  Granted: a recorder is started with a timeslice of 2500 ms,
    the ref holds it as recording and the recording flag goes up.  Refused:
    one console error and nothing else; no recorder is started, the ref and
    the flag stay as they were. *)
Theorem microphone_outcome (st : state) (id : nat) (granted : bool) :
  lookup id (tasks st) = Some KGetUserMedia ->
  isCallActive st = true ->
  let st' := step (Settle id (Media granted)) st in
  if granted then
    trace st' = trace st ++ [ERecorderStart 2500; ESetIsRecording true]
    /\ mediaRecorderRef st' = Some Recording
    /\ isRecording st' = true
  else
    trace st' = trace st ++ [EConsole LError ""]
    /\ mediaRecorderRef st' = mediaRecorderRef st
    /\ isRecording st' = isRecording st.
Proof.
  intros Hk Hm st'. subst st'. destruct granted.
  - rewrite (granted_step st id Hk Hm). cbn. auto.
  - rewrite (denied_step st id Hk). cbn. auto.
Qed.

Lemma microphone_outcome_witness :
  let st := run [ClickRecord; Settle 1 (Fetched NetworkError)]
                (mount no_parse None) in
  let st' := step (Settle 2 (Media false)) st in
  trace st' = trace st ++ [EConsole LError ""]
  /\ mediaRecorderRef st' = mediaRecorderRef st
  /\ isRecording st' = isRecording st.
Proof.
  intros st st'.
  exact (microphone_outcome st 2 false eq_refl eq_refl).
Defined.

(** X3.  Pressing the record button while the recording flag is up always
    lowers the flag, and calls [stop()] on the recorder exactly when the ref
    holds one that is not inactive; with no recorder, or an inactive one, no
    [stop()] is sent.  The press itself uploads nothing and leaves the chunk
    buffer alone: the final upload waits for the recorder's stop event. *)
Theorem stop_button (st : state) :
  isCallActive st = true ->
  isRecording st = true ->
  let st' := step ClickRecord st in
  isRecording st' = false
  /\ (live st = 1 ->
      trace st' = trace st ++ [ERecorderStop; ESetIsRecording false]
      /\ mediaRecorderRef st' = Some Inactive)
  /\ (live st = 0 ->
      trace st' = trace st ++ [ESetIsRecording false]
      /\ mediaRecorderRef st' = mediaRecorderRef st)
  /\ chunksRef st' = chunksRef st
  /\ upload_requests (trace st') = upload_requests (trace st).
Proof.
  intros Hm Hr st'. subst st'. rewrite (stop_click_step st Hm Hr).
  destruct (live st) as [|n] eqn:E; cbn; repeat split; auto;
    try discriminate;
    rewrite ?upload_requests_snoc; cbn; rewrite ?app_nil_r; auto.
  - change (trace st ++ [ERecorderStop; ESetIsRecording false])
      with (trace st ++ [ERecorderStop] ++ [ESetIsRecording false]).
    rewrite app_assoc, !upload_requests_snoc. cbn. now rewrite !app_nil_r.
Qed.

Lemma stop_button_witness :
  let st' := step ClickRecord recording_state in
  isRecording st' = false
  /\ trace st' = trace recording_state ++ [ERecorderStop; ESetIsRecording false]
  /\ mediaRecorderRef st' = Some Inactive.
Proof.
  intros st'.
  destruct (stop_button recording_state eq_refl eq_refl) as (H1 & H2 & _).
  destruct (H2 eq_refl) as [H3 H4].
  exact (conj H1 (conj H3 H4)).
Defined.

(* ------------------------------------------------------------------ *)
(** The button and the recorder stay consistent. *)

Lemma recorder_starts_snoc (tr : list effect) (e : effect) :
  recorder_starts (tr ++ [e])
  = recorder_starts tr + (if is_recorder_start e then 1 else 0).
Proof.
  unfold recorder_starts. rewrite filter_app, length_app. cbn.
  now destruct (is_recorder_start e).
Qed.

Lemma recorder_stops_snoc (tr : list effect) (e : effect) :
  recorder_stops (tr ++ [e])
  = recorder_stops tr + (if is_recorder_stop e then 1 else 0).
Proof.
  unfold recorder_stops. rewrite filter_app, length_app. cbn.
  now destruct (is_recorder_stop e).
Qed.

Arguments recorder_starts : simpl never.
Arguments recorder_stops : simpl never.

Lemma recorder_untouched_refl s : recorder_untouched s s.
Proof. now repeat split. Qed.

Lemma recorder_untouched_trans a b c :
  recorder_untouched a b -> recorder_untouched b c -> recorder_untouched a c.
Proof.
  intros (H1 & H2 & H3 & H4 & H5) (K1 & K2 & K3 & K4 & K5).
  repeat split; try congruence. auto.
Qed.

Ltac untouched_leaf :=
  unfold recorder_untouched; cbn;
  repeat rewrite recorder_starts_snoc;
  repeat rewrite recorder_stops_snoc; cbn;
  repeat rewrite Nat.add_0_r;
  repeat split; auto; try discriminate;
  match goal with
  | |- context [if ?b then _ else _] =>
      destruct b eqn:?; cbn; auto; congruence
  end.

Lemma resume_untouched (k : cont) (c : completion) (m : M unit) :
  k <> KGetUserMedia -> resume k c = Some m -> keeps recorder_untouched m.
Proof.
  pose proof recorder_untouched_refl; pose proof recorder_untouched_trans.
  destruct k, c; cbn; try discriminate; try congruence;
    intros _ [= <-]; frame untouched_leaf.
Qed.

Lemma handler_untouched (ev : event) (st : state) (m : M unit) :
  ev <> ClickRecord ->
  ev <> RecorderEnded ->
  (forall id c, ev = Settle id c -> lookup id (tasks st) <> Some KGetUserMedia) ->
  handler ev st = Some m -> keeps recorder_untouched m.
Proof.
  pose proof recorder_untouched_refl; pose proof recorder_untouched_trans.
  intros Hc He Hs. destruct ev; cbn; try congruence.
  - destruct (interval st); [|discriminate]. intros [= <-]. frame untouched_leaf.
  - destruct (lookup id (timeouts st)); [|discriminate].
    intros [= <-]. frame untouched_leaf.
  - destruct (isCallActive st); [|discriminate]. intros [= <-]. frame untouched_leaf.
  - intros [= <-]. frame untouched_leaf.
  - intros [= <-]. frame untouched_leaf.
  - destruct (lookup id (tasks st)) as [k|] eqn:Hk; [|discriminate].
    destruct (resume k c) as [m'|] eqn:Hr; [|discriminate].
    intros [= <-].
    apply (keeps_bind recorder_untouched recorder_untouched_trans).
    + apply keeps_modify. intro; untouched_leaf.
    + intros _. eapply resume_untouched; eauto.
      intros ->. now apply (Hs id c eq_refl).
Qed.

Lemma mount_untouched (JSON_parse : string -> option jsval) (raw : option string) :
  recorder_untouched initial (mount JSON_parse raw).
Proof.
  pose proof recorder_untouched_refl; pose proof recorder_untouched_trans.
  unfold mount.
  assert (K : keeps recorder_untouched
                (setInterval 2500 ;; location_effect JSON_parse raw))
    by frame untouched_leaf.
  apply K.
Qed.

Lemma untouched_consistent (s s' : state) :
  recorder_untouched s s' -> recorder_consistent s -> recorder_consistent s'.
Proof.
  unfold recorder_consistent, live.
  intros (H1 & H2 & H3 & H4 & H5) (K1 & K2 & K3 & K4).
  rewrite H1, H2, H3, H4. auto.
Qed.

(** The microphone is granted, mounted or not. *)
Lemma granted_consistent (st : state) (id : nat) :
  lookup id (tasks st) = Some KGetUserMedia ->
  recorder_consistent st ->
  recorder_consistent (step (Settle id (Media true)) st).
Proof.
  intros Hk (K1 & K2 & K3 & K4).
  rewrite (settle_step st id KGetUserMedia (Media true) _ Hk eq_refl).
  unfold recorder_consistent, live in *. unfold_handlers; cbn.
  destruct (isCallActive st) eqn:Hm; cbn;
    rewrite <- ?app_assoc; cbn;
    change (trace st ++ [ERecorderStart 2500; ESetIsRecording true])
      with (trace st ++ [ERecorderStart 2500] ++ [ESetIsRecording true]);
    rewrite ?app_assoc, ?recorder_starts_snoc, ?recorder_stops_snoc; cbn;
    repeat split; auto; try discriminate; try (intros; congruence);
    destruct (mediaRecorderRef st) as [[| |]|];
    solve [lia | now destruct K4].
Qed.

(** The browser ends the recorder in the ref. *)
Lemma ended_consistent (st : state) :
  recorder_consistent st -> recorder_consistent (step RecorderEnded st).
Proof.
  intros (K1 & K2 & K3 & K4). unfold step, handler, recorder_consistent, live in *.
  destruct (mediaRecorderRef st) as [[| |]|] eqn:E; cbn;
    rewrite ?E; repeat split; auto; try discriminate; try lia.
Qed.

Lemma step_consistent (ev : event) (st : state) :
  recorder_consistent st -> recorder_consistent (step ev st).
Proof.
  intros Hc.
  assert (Hq : ev <> ClickRecord -> ev <> RecorderEnded ->
               (forall id c, ev = Settle id c ->
                             lookup id (tasks st) <> Some KGetUserMedia) ->
               recorder_consistent (step ev st)).
  { intros H1 H2 H3. apply (untouched_consistent st); [|exact Hc].
    apply (step_keeps recorder_untouched
             recorder_untouched_refl recorder_untouched_trans).
    - intros; untouched_leaf.
    - intros m Hm. eapply handler_untouched; eauto. }
  destruct ev;
    try solve [apply Hq; [discriminate | discriminate | intros ? ? [=]]].
  - (* the record button *)
    destruct (isCallActive st) eqn:Hm.
    + destruct (isRecording st) eqn:Hr.
      * rewrite (stop_click_step st Hm Hr).
        destruct Hc as (K1 & K2 & K3 & K4).
        unfold recorder_consistent, live in *.
        destruct (mediaRecorderRef st) as [[| |]|] eqn:E; cbn; rewrite ?E;
          change (trace st ++ [ERecorderStop; ESetIsRecording false])
            with (trace st ++ [ERecorderStop] ++ [ESetIsRecording false]);
          rewrite ?app_assoc, ?recorder_starts_snoc, ?recorder_stops_snoc; cbn;
          repeat split; auto; try discriminate; try lia.
      * rewrite (start_click_step st Hm Hr).
        destruct Hc as (K1 & K2 & K3 & K4).
        unfold recorder_consistent, live in *. cbn.
        rewrite recorder_starts_snoc, recorder_stops_snoc. cbn.
        rewrite !Nat.add_0_r. repeat split; auto.
    + unfold step, handler. now rewrite Hm.
  - (* a task settles *)
    destruct (lookup id (tasks st)) as [k|] eqn:Hk.
    + destruct k;
        try solve [apply Hq; [discriminate | discriminate
                             | intros ? ? [= <- <-]; congruence]].
      destruct c as [r|ok|[|]].
      * unfold step, handler. now rewrite Hk.
      * unfold step, handler. now rewrite Hk.
      * now apply granted_consistent.
      * rewrite (denied_step st id Hk).
        destruct Hc as (K1 & K2 & K3 & K4).
        unfold recorder_consistent, live in *. cbn.
        rewrite recorder_starts_snoc, recorder_stops_snoc. cbn.
        rewrite !Nat.add_0_r. auto.
    + apply Hq; [discriminate | discriminate | intros ? ? [= <- <-]; congruence].
  - (* the browser ends the recorder *)
    now apply ended_consistent.
Qed.

Lemma run_consistent (evs : list event) (st : state) :
  recorder_consistent st -> recorder_consistent (run evs st).
Proof.
  revert st. induction evs as [|ev evs IH]; intros st H; [exact H|].
  change (run (ev :: evs) st) with (run evs (step ev st)).
  apply IH. now apply step_consistent.
Qed.

(** The browser ends the recorder in the ref while the button says Stop
    Recording: the flag stays up, and the press that follows only lowers
    it. *)
Lemma ended_then_stop_click (st : state) :
  isCallActive st = true ->
  isRecording st = true ->
  mediaRecorderRef st = Some Recording ->
  let ended := step RecorderEnded st in
  isRecording ended = true
  /\ mediaRecorderRef ended = Some Inactive
  /\ trace ended = trace st
  /\ trace (step ClickRecord ended) = trace ended ++ [ESetIsRecording false]
  /\ isRecording (step ClickRecord ended) = false.
Proof.
  intros Hm Hr He ended.
  assert (E : ended = with_mediaRecorderRef (Some Inactive) st)
    by (subst ended; unfold step, handler; now rewrite He).
  rewrite E, stop_click_step by (cbn; auto). cbn. auto.
Qed.

(** X4.  In every state the component can reach after mounting, whatever
    the user, the network and the browser do: [stop()] has been called no
    more often than recorders were started, and a recorder the ref would
    stop has a start not matched by a stop; while the interface is on the
    page, a recorder in the ref that is still recording always has the
    recording flag up, so the button offers to stop it; the flag is up only
    once the ref holds a recorder, which is then either recording or
    inactive; and the ref never holds a paused recorder.  The flag can be up
    over an inactive recorder: when the browser itself ends the recorder in
    the ref, no code of the component runs and the flag stays up, until the
    next press on the button, which lowers the flag and calls no
    [stop()]. *)
Theorem recorder_button_invariant
    (JSON_parse : string -> option jsval) (raw : option string)
    (evs : list event) :
  let st := run evs (mount JSON_parse raw) in
  recorder_stops (trace st) + live st <= recorder_starts (trace st)
  /\ (isCallActive st = true -> mediaRecorderRef st = Some Recording ->
      isRecording st = true)
  /\ (isRecording st = true ->
      mediaRecorderRef st = Some Recording
      \/ mediaRecorderRef st = Some Inactive)
  /\ mediaRecorderRef st <> Some Paused
  /\ (isCallActive st = true -> mediaRecorderRef st = Some Recording ->
      let ended := step RecorderEnded st in
      isRecording ended = true
      /\ mediaRecorderRef ended = Some Inactive
      /\ trace ended = trace st
      /\ trace (step ClickRecord ended) = trace ended ++ [ESetIsRecording false]
      /\ isRecording (step ClickRecord ended) = false).
Proof.
  intros st.
  assert (H : recorder_consistent st).
  { subst st. apply run_consistent.
    apply (untouched_consistent initial); [apply mount_untouched|].
    repeat split; try discriminate. vm_compute; lia. }
  destruct H as (H1 & H2 & H3 & H4).
  split; [|split; [|split; [|split]]]; auto.
  intros Hm He. apply ended_then_stop_click; auto.
Qed.

Lemma recorder_button_invariant_witness :
  let st := run [ClickRecord; Settle 1 (Fetched (ok_with (JObj [])));
                 Settle 2 (Media true)] (mount no_parse None) in
  let ended := step RecorderEnded st in
  isRecording ended = true
  /\ mediaRecorderRef ended = Some Inactive
  /\ trace ended = trace st
  /\ trace (step ClickRecord ended) = trace ended ++ [ESetIsRecording false]
  /\ isRecording (step ClickRecord ended) = false.
Proof.
  intros st.
  exact (proj2 (proj2 (proj2 (proj2
           (recorder_button_invariant no_parse None
              [ClickRecord; Settle 1 (Fetched (ok_with (JObj [])));
               Settle 2 (Media true)]))))
           eq_refl eq_refl).
Defined.

(** X5.  The recording flag only goes up once the microphone is granted, so
    a second press of the record button before that starts a second
    recording instead of stopping the first.  When both requests go through,
    two recorders are started, and the Stop Recording press that follows
    stops just one of them: the button is back to Record, the ref holds an
    inactive recorder, and one recorder is left running. *)
Theorem record_pressed_twice_before_grant
    (st : state) (r1 r2 : fetch_result) :
  isCallActive st = true ->
  isRecording st = false ->
  let n := next_id st in
  let st2 := run [ClickRecord; ClickRecord] st in
  let st6 := run [Settle n (Fetched r1); Settle (S n) (Fetched r2);
                  Settle (S (S n)) (Media true);
                  Settle (S (S (S n))) (Media true)] st2 in
  let st7 := step ClickRecord st6 in
  trace st2
  = trace st ++ [EFetch start_listening_request; EFetch start_listening_request]
  /\ isRecording st2 = false
  /\ recorder_starts (trace st7) = recorder_starts (trace st) + 2
  /\ recorder_stops (trace st7) = recorder_stops (trace st) + 1
  /\ isRecording st7 = false
  /\ live st7 = 0.
Proof.
  intros Hm Hr n st2 st6 st7. subst st7 st6 st2 n.
  unfold run; cbn [fold_left].
  rewrite (start_click_step st Hm Hr).
  rewrite start_click_step by (cbn; assumption).
  split; [cbn; now rewrite <- app_assoc|].
  split; [cbn; assumption|].
  rewrite (start_listening_step _ (next_id st) r1)
    by (cbn; decide_ids; reflexivity).
  rewrite (start_listening_step _ (S (next_id st)) r2)
    by (cbn; decide_ids; cbn; decide_ids; reflexivity).
  rewrite (granted_step _ (S (S (next_id st))))
    by (cbn; decide_ids; cbn; decide_ids; auto).
  rewrite (granted_step _ (S (S (S (next_id st)))))
    by (cbn; decide_ids; cbn; decide_ids; auto).
  rewrite stop_click_step by (cbn; auto).
  unfold live, recorder_starts, recorder_stops. cbn.
  destruct r1, r2; cbn; rewrite !filter_app, !length_app; cbn;
    repeat split; lia.
Qed.

Lemma record_pressed_twice_before_grant_witness :
  let st := mount no_parse None in
  let r := ok_with (JObj []) in
  let n := next_id st in
  let st2 := run [ClickRecord; ClickRecord] st in
  let st6 := run [Settle n (Fetched r); Settle (S n) (Fetched r);
                  Settle (S (S n)) (Media true);
                  Settle (S (S (S n))) (Media true)] st2 in
  let st7 := step ClickRecord st6 in
  trace st2
  = trace st ++ [EFetch start_listening_request; EFetch start_listening_request]
  /\ isRecording st2 = false
  /\ recorder_starts (trace st7) = recorder_starts (trace st) + 2
  /\ recorder_stops (trace st7) = recorder_stops (trace st) + 1
  /\ isRecording st7 = false
  /\ live st7 = 0.
Proof.
  intros st r.
  exact (record_pressed_twice_before_grant st r r eq_refl eq_refl).
Defined.

(* ================================================================== *)
(** ** What the handlers never do *)

Lemma hushed_refl s : hushed s s.
Proof. reflexivity. Qed.

Lemma hushed_trans a b c : hushed a b -> hushed b c -> hushed a c.
Proof. unfold hushed; congruence. Qed.

Ltac hushed_leaf :=
  unfold hushed; cbn; auto;
  match goal with
  | |- context [if ?b then _ else _] => destruct b; cbn; auto
  end.

Lemma resume_hushed (k : cont) (c : completion) (m : M unit) :
  k <> KPoll -> resume k c = Some m -> keeps hushed m.
Proof.
  pose proof hushed_refl; pose proof hushed_trans.
  destruct k, c; cbn; try discriminate; try congruence;
    intros _ [= <-]; frame hushed_leaf.
Qed.

Lemma handler_hushed (ev : event) (st : state) (m : M unit) :
  (forall id, ev <> Timeout id) ->
  (forall id c, ev = Settle id c -> lookup id (tasks st) <> Some KPoll) ->
  handler ev st = Some m -> keeps hushed m.
Proof.
  pose proof hushed_refl; pose proof hushed_trans.
  intros Ht Hs. destruct ev; cbn.
  - destruct (interval st); [|discriminate]. intros [= <-]. frame hushed_leaf.
  - now destruct (Ht id).
  - destruct (isCallActive st); [|discriminate]. intros [= <-]. frame hushed_leaf.
  - destruct (isCallActive st); [|discriminate]. intros [= <-]. frame hushed_leaf.
  - intros [= <-]. frame hushed_leaf.
  - intros [= <-]. frame hushed_leaf.
  - destruct (lookup id (tasks st)) as [k|] eqn:Hk; [|discriminate].
    destruct (resume k c) as [m'|] eqn:Hr; [|discriminate].
    intros [= <-].
    apply (keeps_bind hushed hushed_trans).
    + apply keeps_modify. intro; hushed_leaf.
    + intros _. eapply resume_hushed; eauto.
      intros ->. now apply (Hs id c eq_refl).
  - destruct (mediaRecorderRef st) as [[| |]|]; try discriminate;
      intros [= <-]; frame hushed_leaf.
Qed.

(** X6.  Only a poll reply and the timer it arms move the speaking
    indicator.  Every other event leaves it as it is: in particular the
    reply carried by an upload response changes the response text but never
    raises the indicator. *)
Theorem indicator_moves_only_on_polls (ev : event) (st : state) :
  (forall id, ev <> Timeout id) ->
  (forall id c, ev = Settle id c -> lookup id (tasks st) <> Some KPoll) ->
  isAISpeaking (step ev st) = isAISpeaking st.
Proof.
  intros Ht Hs.
  apply (step_keeps hushed hushed_refl hushed_trans).
  - intros; hushed_leaf.
  - intros m Hm. eapply handler_hushed; eauto.
Qed.

Lemma indicator_moves_only_on_polls_witness :
  let st := step (DataAvailable (Some ["001"%byte])) recording_state in
  let ev := Settle 3 (Fetched (ok_with (JObj [("reply", JStr "On our way.")]))) in
  isAISpeaking (step ev st) = isAISpeaking st.
Proof.
  intros st ev.
  apply (indicator_moves_only_on_polls ev st).
  - intros id. discriminate.
  - intros id c [= <- <-]. discriminate.
Defined.

(** X7.  No exception ever leaves the component's code: the two mount
    effects end normally whatever the cache holds, and after any sequence of
    events nothing has been reported as uncaught. *)
Theorem nothing_is_ever_uncaught
    (JSON_parse : string -> option jsval) (raw : option string)
    (evs : list event) :
  fst ((setInterval 2500 ;; location_effect JSON_parse raw) initial) = Ok tt
  /\ uncaught (trace (run evs (mount JSON_parse raw))) = [].
Proof.
  split.
  - assert (K : safe (setInterval 2500 ;; location_effect JSON_parse raw))
      by safety.
    destruct (K initial) as [[] Ha]. exact Ha.
  - rewrite run_uncaught.
    destruct (mount_cache_or_lookup JSON_parse raw)
      as [-> | (text & _ & -> & _)]; reflexivity.
Qed.

Lemma poll_requests_snoc (tr : list effect) (e : effect) :
  poll_requests (tr ++ [e]) = poll_requests tr ++ poll_of e.
Proof.
  unfold poll_requests. rewrite flat_map_app. cbn. now rewrite app_nil_r.
Qed.

Arguments poll_requests : simpl never.

Lemma parked_refl s : parked s s.
Proof. now intros H. Qed.

Lemma parked_trans a b c : parked a b -> parked b c -> parked a c.
Proof.
  intros H K Ha. destruct (H Ha) as [H1 H2]. destruct (K H1) as [K1 K2].
  split; congruence.
Qed.

Ltac parked_leaf :=
  unfold parked; cbn; intros;
  repeat rewrite poll_requests_snoc; cbn;
  repeat rewrite app_nil_r;
  auto;
  match goal with
  | |- context [if ?b then _ else _] => destruct b; cbn; auto
  end.

Lemma resume_parked (k : cont) (c : completion) (m : M unit) :
  resume k c = Some m -> keeps parked m.
Proof.
  pose proof parked_refl; pose proof parked_trans.
  destruct k, c; cbn; try discriminate; intros [= <-]; frame parked_leaf.
Qed.

Lemma handler_parked (ev : event) (st : state) (m : M unit) :
  interval st = None ->
  handler ev st = Some m -> keeps parked m.
Proof.
  pose proof parked_refl; pose proof parked_trans.
  intros Hi. destruct ev; cbn.
  - now rewrite Hi.
  - destruct (lookup id (timeouts st)); [|discriminate].
    intros [= <-]. frame parked_leaf.
  - destruct (isCallActive st); [|discriminate]. intros [= <-]. frame parked_leaf.
  - destruct (isCallActive st); [|discriminate]. intros [= <-]. frame parked_leaf.
  - intros [= <-]. frame parked_leaf.
  - intros [= <-]. frame parked_leaf.
  - destruct (lookup id (tasks st)) as [k|] eqn:Hk; [|discriminate].
    destruct (resume k c) as [m'|] eqn:Hr; [|discriminate].
    intros [= <-].
    apply (keeps_bind parked parked_trans).
    + apply keeps_modify. intro; parked_leaf.
    + intros _. eapply resume_parked; eauto.
  - destruct (mediaRecorderRef st) as [[| |]|]; try discriminate;
      intros [= <-]; frame parked_leaf.
Qed.

Lemma run_parked (evs : list event) (st : state) :
  interval st = None ->
  interval (run evs st) = None
  /\ poll_requests (trace (run evs st)) = poll_requests (trace st).
Proof.
  revert st. induction evs as [|ev evs IH]; intros st Hi; [now split|].
  change (run (ev :: evs) st) with (run evs (step ev st)).
  assert (Hp : parked st (step ev st)).
  { apply (step_keeps parked parked_refl parked_trans).
    - intros; parked_leaf.
    - intros m Hm. eapply handler_parked; eauto. }
  destruct (Hp Hi) as [H1 H2]. destruct (IH _ H1) as [K1 K2].
  split; congruence.
Qed.

(** The End Call button and the settling of its request. *)
Lemma end_call_steps (st : state) (r : fetch_result) :
  isCallActive st = true ->
  interval (step (Settle (next_id st) (Fetched r)) (step ClickEnd st)) = None
  /\ isCallActive (step (Settle (next_id st) (Fetched r)) (step ClickEnd st))
     = false.
Proof.
  intros Hm. unfold_handlers; cbn.
  repeat (progress (rewrite ?Hm, ?Nat.eqb_refl; cbn)).
  destruct r; cbn; rewrite Hm; cbn; auto.
Qed.

(** X8.  Once End Call has gone through, polling is over for good: the
    interval is cleared, and whatever happens afterwards (late ticks, replies
    still in flight, recorder events) no further poll request is sent and no
    interval is set again. *)
Theorem polling_ends_with_the_call
    (st : state) (r : fetch_result) (evs : list event) :
  isCallActive st = true ->
  let ended := step (Settle (next_id st) (Fetched r)) (step ClickEnd st) in
  interval (run evs ended) = None
  /\ poll_requests (trace (run evs ended)) = poll_requests (trace ended).
Proof.
  intros Hm ended. apply run_parked.
  apply (end_call_steps st r Hm).
Qed.

Lemma polling_ends_with_the_call_witness :
  let st := recording_state in
  let evs := [Tick; Tick; DataAvailable (Some ["001"%byte])] in
  let ended := step (Settle (next_id st) (Fetched NetworkError)) (step ClickEnd st) in
  interval (run evs ended) = None
  /\ poll_requests (trace (run evs ended)) = poll_requests (trace ended).
Proof.
  intros st evs.
  exact (polling_ends_with_the_call st NetworkError evs eq_refl).
Defined.

(* ================================================================== *)
(** ** Replies: polls and upload responses *)

(** X9.  The reply a poll shows is [last_response] whenever that is truthy,
    whatever [reply] holds, and [reply] otherwise.  A truthy value goes
    through [String(...)]: when the conversion succeeds, its text becomes
    the response and the speaking indicator is raised, so a body carrying
    only [reply] is displayed like one carrying [last_response].  When the
    conversion throws (the value is an object with a property of its own
    named [toString], or an array holding one), the poll ends in its
    [catch]: one console line is written, and the text, the indicator and
    the timers stay as they were. *)
Theorem poll_reply_precedence
    (st : state) (id : nat) (res : http_response) (data : jsval) :
  lookup id (tasks st) = Some KPoll ->
  isCallActive st = true ->
  res_ok res = true ->
  body res = Some data ->
  nullish data = false ->
  truthy (latest_reply data) = true ->
  let st' := step (Settle id (Fetched (Resp res))) st in
  latest_reply data
  = (if truthy (own data "last_response") then own data "last_response"
     else own data "reply")
  /\ match js_String (latest_reply data) with
     | Some text =>
         response st' = text
         /\ isAISpeaking st' = true
         /\ trace st' = trace st ++ [ESetResponse text;
                                     ESetIsAISpeaking true;
                                     ESetTimeout (next_id st) 1800]
     | None =>
         st' = with_trace (trace st ++ [EConsole LError "Polling error:"])
                 (with_tasks (remove id (tasks st)) st)
     end.
Proof.
  intros Hk Hm Hok Hb Hn Ht st'. subst st'. split.
  - unfold latest_reply, js_or in *.
    destruct (truthy (own data "last_response")) eqn:E1.
    + now rewrite E1.
    + destruct (truthy (own data "reply")) eqn:E2; [reflexivity|].
      cbn in Ht. discriminate.
  - rewrite (settle_step st id KPoll (Fetched (Resp res)) _ Hk eq_refl).
    rewrite (poll_resume_body res data Hok Hb Hn), Ht.
    unfold StringM. destruct (js_String (latest_reply data)) as [text|].
    + unfold_handlers; cbn.
      repeat (progress (rewrite ?Hm; cbn)).
      repeat split; auto. now rewrite <- !app_assoc.
    + reflexivity.
Qed.

Lemma poll_reply_precedence_witness :
  let st := step Tick (mount no_parse None) in
  let data := JObj [("last_response", JStr ""); ("reply", JStr "Stay put.")] in
  let odd := JObj [("last_response", JObj [("toString", JStr "x")]);
                   ("reply", JStr "Stay put.")] in
  let st' := step (Settle 1 (Fetched (ok_with data))) st in
  (response st' = "Stay put." /\ isAISpeaking st' = true)
  /\ step (Settle 1 (Fetched (ok_with odd))) st
     = with_trace (trace st ++ [EConsole LError "Polling error:"])
         (with_tasks (remove 1 (tasks st)) st).
Proof.
  intros st data odd st'. split.
  - destruct (poll_reply_precedence st 1 {| status := 200; body := Some data |}
                data eq_refl eq_refl eq_refl eq_refl eq_refl eq_refl)
      as (_ & H1 & H2 & _).
    exact (conj H1 H2).
  - exact (proj2 (poll_reply_precedence st 1
                    {| status := 200; body := Some odd |} odd
                    eq_refl eq_refl eq_refl eq_refl eq_refl eq_refl)).
Defined.

(** The continuation of an upload on a 2xx response with a readable body,
    for a timed fragment and for the final upload. *)
Lemma chunk_upload_resume_body (res : http_response) (data : jsval) :
  res_ok res = true ->
  body res = Some data ->
  nullish data = false ->
  chunk_upload_resume (Resp res)
  = try_catch
      ((if truthy (own data "reply")
        then text <- StringM (own data "reply") ;; setResponse text
        else ret tt) ;;
       if truthy (own data "audio_url")
       then try_catch
              (src <- StringM (own data "audio_url") ;; play src KChunkPlay)
              (fun _ => console LError "Failed to play audio")
       else ret tt)
      (fun _ => console LError "ondataavailable upload error:").
Proof.
  intros Hok Hb Hn. unfold chunk_upload_resume, settled.
  rewrite bind_ret, Hok. cbn [negb].
  unfold res_json. rewrite Hb, bind_ret.
  rewrite (js_get_ok data "reply" Hn), bind_ret.
  rewrite (js_get_ok data "audio_url" Hn).
  reflexivity.
Qed.

(** X10.  What a 2xx response to the upload of a timed fragment does on the
    mounted component.  A truthy [reply] becomes the response text and a
    truthy [audio_url] is played, independently of each other: audio without
    a reply plays and leaves the text, a reply without audio changes the
    text and plays nothing.  An [audio_url] that cannot be converted to text
    is logged as a failed playback and nothing is played; a [reply] that
    cannot be converted ends the handler in its outer [catch], so that one
    console line is written and an [audio_url] next to it is not played
    either.  The chunk buffer is never touched. *)
Theorem chunk_response_handling
    (st : state) (id : nat) (res : http_response) (data : jsval) :
  lookup id (tasks st) = Some KChunkUpload ->
  isCallActive st = true ->
  res_ok res = true ->
  body res = Some data ->
  nullish data = false ->
  let reply := rendered (own data "reply") in
  let audio := rendered (own data "audio_url") in
  let st' := step (Settle id (Fetched (Resp res))) st in
  chunksRef st' = chunksRef st
  /\ match reply with
     | Unprintable =>
         st' = with_trace
                 (trace st ++ [EConsole LError "ondataavailable upload error:"])
                 (with_tasks (remove id (tasks st)) st)
     | _ =>
         response st' = match reply with Text s => s | _ => response st end
         /\ trace st'
            = trace st
              ++ match reply with Text s => [ESetResponse s] | _ => [] end
              ++ match audio with
                 | Skipped => []
                 | Text src => [EPlay src]
                 | Unprintable => [EConsole LError "Failed to play audio"]
                 end
         /\ tasks st'
            = match audio with
              | Text _ => [(next_id st, KChunkPlay)]
              | _ => []
              end ++ remove id (tasks st)
     end.
Proof.
  intros Hk Hm Hok Hb Hn reply audio st'. subst st' reply audio.
  rewrite (settle_step st id KChunkUpload (Fetched (Resp res)) _ Hk eq_refl).
  rewrite (chunk_upload_resume_body res data Hok Hb Hn).
  unfold rendered, StringM.
  destruct (truthy (own data "reply")),
           (js_String (own data "reply")),
           (truthy (own data "audio_url")),
           (js_String (own data "audio_url"));
    unfold_handlers; cbn; rewrite ?Hm; cbn;
    rewrite ?app_nil_r, <- ?app_assoc; auto.
Qed.

Lemma chunk_response_handling_witness :
  let st := step (DataAvailable (Some ["001"%byte])) recording_state in
  let data := JObj [("audio_url", JStr "/audio/1.mp3")] in
  let odd := JObj [("reply", JObj [("toString", JNull)]);
                   ("audio_url", JStr "/audio/1.mp3")] in
  let st' := step (Settle 3 (Fetched (ok_with data))) st in
  (response st' = response st
   /\ trace st' = trace st ++ [] ++ [EPlay "/audio/1.mp3"])
  /\ step (Settle 3 (Fetched (ok_with odd))) st
     = with_trace
         (trace st ++ [EConsole LError "ondataavailable upload error:"])
         (with_tasks (remove 3 (tasks st)) st).
Proof.
  intros st data odd st'. split.
  - destruct (chunk_response_handling st 3 {| status := 200; body := Some data |}
                data eq_refl eq_refl eq_refl eq_refl eq_refl) as (_ & H1 & H2 & _).
    exact (conj H1 H2).
  - exact (proj2 (chunk_response_handling st 3
                    {| status := 200; body := Some odd |} odd
                    eq_refl eq_refl eq_refl eq_refl eq_refl)).
Defined.

(** X11.  A playback that fails is logged and forgotten.  When
    [audio.play()] settles for a timed fragment, nothing changes but the
    task table, plus one console line on failure; for the final upload the
    same holds, and the chunk buffer is emptied whether the playback
    succeeded or not.  The response text is never touched and nothing is
    played or uploaded again. *)
Theorem playback_settles_quietly (st : state) (id : nat) (ok : bool) :
  let log := if ok then [] else [EConsole LError "Failed to play audio"] in
  let st' := step (Settle id (Played ok)) st in
  (lookup id (tasks st) = Some KChunkPlay ->
   st' = with_trace (trace st ++ log) (with_tasks (remove id (tasks st)) st))
  /\ (lookup id (tasks st) = Some KFinalPlay ->
      st' = with_chunksRef []
              (with_trace (trace st ++ log)
                 (with_tasks (remove id (tasks st)) st))).
Proof.
  intros log st'. subst log st'. split; intros Hk.
  - rewrite (settle_step st id KChunkPlay (Played ok) _ Hk eq_refl).
    destruct ok; unfold_handlers; cbn; apply state_ext; cbn;
      repeat split; auto; now rewrite app_nil_r.
  - rewrite (settle_step st id KFinalPlay (Played ok) _ Hk eq_refl).
    destruct ok; unfold_handlers; cbn; apply state_ext; cbn;
      repeat split; auto; now rewrite app_nil_r.
Qed.

Lemma playback_settles_quietly_witness :
  let st0 := step (DataAvailable (Some ["001"%byte])) recording_state in
  let st := step (Settle 3 (Fetched (ok_with
                    (JObj [("audio_url", JStr "/audio/1.mp3")])))) st0 in
  step (Settle 4 (Played false)) st
  = with_trace (trace st ++ [EConsole LError "Failed to play audio"])
      (with_tasks (remove 4 (tasks st)) st).
Proof.
  intros st0 st.
  exact (proj1 (playback_settles_quietly st 4 false) eq_refl).
Defined.

Lemma final_upload_resume_body (res : http_response) (data : jsval) :
  res_ok res = true ->
  body res = Some data ->
  nullish data = false ->
  final_upload_resume (Resp res)
  = (suspended <-
       try_catch
         ((if truthy (own data "reply")
           then text <- StringM (own data "reply") ;; setResponse text
           else ret tt) ;;
          if truthy (own data "audio_url")
          then try_catch
                 (src <- StringM (own data "audio_url") ;;
                  play src KFinalPlay ;; ret true)
                 (fun _ => console LError "Failed to play audio" ;; ret false)
          else ret false)
         (fun _ => console LError "final upload error:" ;; ret false) ;;
     if (suspended : bool) then ret tt else clear_chunks).
Proof.
  intros Hok Hb Hn. unfold final_upload_resume, settled.
  rewrite bind_ret, Hok. cbn [negb].
  unfold res_json. rewrite Hb, bind_ret.
  rewrite (js_get_ok data "reply" Hn), bind_ret.
  rewrite (js_get_ok data "audio_url" Hn).
  reflexivity.
Qed.

(** X12.  A 2xx response to the final upload is handled like the response
    to a timed fragment (a truthy [reply] becomes the response text, a truthy
    [audio_url] is played), and it decides when the chunk buffer is emptied:
    not before the playback has settled when a playback was started, and at
    once in every other case, that is when there is nothing to play, when
    the [audio_url] cannot be converted to text (logged as a failed
    playback), and when the [reply] cannot be converted (logged as a failed
    final upload, nothing shown and nothing played). *)
Theorem final_response_handling
    (st : state) (id : nat) (res : http_response) (data : jsval) :
  lookup id (tasks st) = Some KFinalUpload ->
  isCallActive st = true ->
  res_ok res = true ->
  body res = Some data ->
  nullish data = false ->
  let reply := rendered (own data "reply") in
  let audio := rendered (own data "audio_url") in
  let st' := step (Settle id (Fetched (Resp res))) st in
  match reply with
  | Unprintable =>
      st' = with_chunksRef []
              (with_trace (trace st ++ [EConsole LError "final upload error:"])
                 (with_tasks (remove id (tasks st)) st))
  | _ =>
      response st' = match reply with Text s => s | _ => response st end
      /\ trace st'
         = trace st
           ++ match reply with Text s => [ESetResponse s] | _ => [] end
           ++ match audio with
              | Skipped => []
              | Text src => [EPlay src]
              | Unprintable => [EConsole LError "Failed to play audio"]
              end
      /\ tasks st'
         = match audio with
           | Text _ => [(next_id st, KFinalPlay)]
           | _ => []
           end ++ remove id (tasks st)
      /\ chunksRef st' = match audio with
                         | Text _ => chunksRef st
                         | _ => []
                         end
  end.
Proof.
  intros Hk Hm Hok Hb Hn reply audio st'. subst st' reply audio.
  rewrite (settle_step st id KFinalUpload (Fetched (Resp res)) _ Hk eq_refl).
  rewrite (final_upload_resume_body res data Hok Hb Hn).
  unfold rendered, StringM.
  destruct (truthy (own data "reply")),
           (js_String (own data "reply")),
           (truthy (own data "audio_url")),
           (js_String (own data "audio_url"));
    unfold_handlers; cbn; rewrite ?Hm; cbn;
    rewrite ?app_nil_r, <- ?app_assoc; auto.
Qed.

Lemma final_response_handling_witness :
  let st := step RecorderStopped
              (step (DataAvailable (Some ["001"%byte])) recording_state) in
  let data := JObj [("reply", JStr "Help is coming.");
                    ("audio_url", JStr "/audio/2.mp3")] in
  let odd := JObj [("audio_url", JObj [("toString", JStr "/audio/2.mp3")])] in
  let st' := step (Settle 4 (Fetched (ok_with data))) st in
  let st'' := step (Settle 4 (Fetched (ok_with odd))) st in
  (response st' = "Help is coming." /\ chunksRef st' = chunksRef st)
  /\ (trace st'' = trace st ++ [] ++ [EConsole LError "Failed to play audio"]
      /\ chunksRef st'' = []).
Proof.
  intros st data odd st' st''. split.
  - destruct (final_response_handling st 4 {| status := 200; body := Some data |}
                data eq_refl eq_refl eq_refl eq_refl eq_refl) as (H1 & _ & _ & H4).
    exact (conj H1 H4).
  - destruct (final_response_handling st 4 {| status := 200; body := Some odd |}
                odd eq_refl eq_refl eq_refl eq_refl eq_refl) as (_ & H2 & _ & H4).
    exact (conj H2 H4).
Defined.

(* ================================================================== *)
(** ** The cached location: malformed entries and nesting *)

(** X13.  A cache entry that cannot be used is passed over in silence: when
    the stored text is empty, is not JSON, or parses to anything but an
    object ([null], a number, a string, an array), mounting behaves exactly
    as with no entry at all; nothing is logged and the remote lookup is
    made. *)
Theorem unusable_cache_is_ignored
    (JSON_parse : string -> option jsval) (raw : string) :
  (nonempty raw = false
   \/ JSON_parse raw = None
   \/ exists info, JSON_parse raw = Some info /\ forall fs, info <> JObj fs) ->
  mount JSON_parse (Some raw) = mount JSON_parse None.
Proof.
  intros [H | [H | (info & H & Hn)]]; unfold_location; cbn.
  - now rewrite H.
  - destruct (nonempty raw); [|reflexivity]. now rewrite H.
  - destruct (nonempty raw); [|reflexivity]. rewrite H. cbn.
    destruct info; try reflexivity. now destruct (Hn fields).
Qed.

Lemma unusable_cache_is_ignored_witness :
  let parse := fun _ : string => Some JNull in
  mount parse (Some "null") = mount parse None.
Proof.
  intros parse.
  apply (unusable_cache_is_ignored parse "null").
  right. right. exists JNull. split; [reflexivity | discriminate].
Defined.

(** X14.  When the cached record has a truthy [geolocation] property, the
    location is read from that property alone: two cached records with the
    same [geolocation] value give the same state after mount, whatever their
    own city, region and country say. *)
Theorem nested_geolocation_wins
    (parse1 parse2 : string -> option jsval) (raw : string)
    (info1 info2 : jsval) :
  parse1 raw = Some info1 ->
  parse2 raw = Some info2 ->
  nullish info1 = false ->
  nullish info2 = false ->
  own info1 "geolocation" = own info2 "geolocation" ->
  truthy (own info1 "geolocation") = true ->
  mount parse1 (Some raw) = mount parse2 (Some raw).
Proof.
  intros H1 H2 N1 N2 Hg Ht. unfold_location; cbn.
  assert (E : forall i, js_or (own info1 "geolocation") i
                        = own info1 "geolocation")
    by (intro; unfold js_or; now rewrite Ht).
  rewrite H1, H2. cbn. rewrite N1, N2. cbn. rewrite <- Hg, !E.
  reflexivity.
Qed.

Lemma nested_geolocation_wins_witness :
  let inner := JObj [("city", JStr "Boston")] in
  let parse1 := fun _ : string =>
    Some (JObj [("geolocation", inner); ("city", JStr "Paris")]) in
  let parse2 := fun _ : string => Some (JObj [("geolocation", inner)]) in
  mount parse1 (Some "{...}") = mount parse2 (Some "{...}").
Proof.
  intros inner parse1 parse2.
  exact (nested_geolocation_wins parse1 parse2 "{...}"
           (JObj [("geolocation", inner); ("city", JStr "Paris")])
           (JObj [("geolocation", inner)])
           eq_refl eq_refl eq_refl eq_refl eq_refl eq_refl).
Defined.

(* ================================================================== *)
(** ** [App] and [HeroSection]: consent before the call *)

Lemma App_step_inactive (ev : App.event) (s : App.state) :
  App.is_consent ev = false ->
  App.isCallActive s = false ->
  App.isCallActive (App.step ev s) = false.
Proof.
  intros Hc Hs. destruct ev; cbn in *; try discriminate; auto.
  - now rewrite Hs.
  - destruct (existsb (Nat.eqb id) (App.pending s)); [|exact Hs].
    unfold App.handleCallClick_resume. destruct r; cbn; exact Hs.
  - unfold App.handleNavigate. destruct found; cbn; exact Hs.
Qed.

(** X15.  The call interface is never put on the page without consent:
    from a state with no active call, no sequence of TALK presses, settled
    requests, declines, ended calls and navigations activates a call unless
    it contains a Consent. *)
Theorem App_no_call_without_consent (evs : list App.event) (s : App.state) :
  App.isCallActive s = false ->
  forallb (fun ev => negb (App.is_consent ev)) evs = true ->
  App.isCallActive (App.run evs s) = false.
Proof.
  revert s. induction evs as [|ev evs IH]; intros s Hs Hc; [exact Hs|].
  cbn in Hc. apply andb_prop in Hc as [H1 H2]. apply negb_true_iff in H1.
  change (App.run (ev :: evs) s) with (App.run evs (App.step ev s)).
  apply IH; [|exact H2]. now apply App_step_inactive.
Qed.

Lemma App_no_call_without_consent_witness :
  let evs := [App.ClickTalk; App.SettleTalk 0 NetworkError; App.Decline;
              App.Navigate "about" true; App.EndCall] in
  App.isCallActive (App.run evs App.initial) = false.
Proof.
  intros evs.
  exact (App_no_call_without_consent evs App.initial eq_refl eq_refl).
Defined.

(** X16.  Pressing TALK sends one [start_listening] request and waits for
    it; when it settles, rejected or answered with any status, the consent
    modal opens.  A rejection is only logged: the backend being down does
    not keep the user from the consent prompt, and no call is active yet. *)
Theorem App_talk_opens_consent (s : App.state) (r : fetch_result) :
  App.isCallActive s = false ->
  let s1 := App.step App.ClickTalk s in
  let s2 := App.step (App.SettleTalk (App.next_id s) r) s1 in
  App.trace s1 = App.trace s ++ [App.Fetch App.start_request]
  /\ App.showConsentModal s1 = App.showConsentModal s
  /\ App.showConsentModal s2 = true
  /\ App.isCallActive s2 = false
  /\ App.trace s2
     = App.trace s1
       ++ match r with
          | NetworkError => [App.Console LError "Failed to start listening:"]
          | Resp _ => []
          end.
Proof.
  intros Hs s1 s2. subst s2 s1. cbn. rewrite Hs. cbn.
  rewrite Nat.eqb_refl. cbn.
  destruct r; cbn; rewrite ?app_nil_r; auto.
Qed.

Lemma App_talk_opens_consent_witness :
  let s := App.initial in
  let s1 := App.step App.ClickTalk s in
  let s2 := App.step (App.SettleTalk (App.next_id s) NetworkError) s1 in
  App.trace s1 = App.trace s ++ [App.Fetch App.start_request]
  /\ App.showConsentModal s1 = App.showConsentModal s
  /\ App.showConsentModal s2 = true
  /\ App.isCallActive s2 = false
  /\ App.trace s2
     = App.trace s1 ++ [App.Console LError "Failed to start listening:"].
Proof.
  intros s.
  exact (App_talk_opens_consent s NetworkError eq_refl).
Defined.

(** X17.  A TALK request that settles late still opens the consent modal,
    whatever has happened since it was sent.  After two TALK presses, the
    first request settling and the user consenting, the second request
    settling puts the consent modal back on the page over the active
    call. *)
Theorem App_late_talk_reopens_consent
    (s : App.state) (r1 r2 : fetch_result) :
  App.isCallActive s = false ->
  let n := App.next_id s in
  let s' := App.run [App.ClickTalk; App.ClickTalk; App.SettleTalk n r1;
                     App.Consent; App.SettleTalk (S n) r2] s in
  App.isCallActive s' = true /\ App.showConsentModal s' = true.
Proof.
  intros Hs n s'. subst s' n. cbn. rewrite Hs. cbn. rewrite Hs. cbn.
  rewrite Nat.eqb_refl, orb_true_r. cbn.
  destruct r1; cbn;
    destruct (Nat.eq_dec (App.next_id s) (S (App.next_id s))) as [E|E];
    try lia; cbn;
    destruct (Nat.eq_dec (App.next_id s) (App.next_id s)) as [E'|E'];
    try congruence; cbn;
    rewrite Nat.eqb_refl; cbn; destruct r2; cbn; auto.
Qed.

Lemma App_late_talk_reopens_consent_witness :
  let s := App.initial in
  let r := Resp {| status := 200; body := None |} in
  let n := App.next_id s in
  let s' := App.run [App.ClickTalk; App.ClickTalk; App.SettleTalk n r;
                     App.Consent; App.SettleTalk (S n) r] s in
  App.isCallActive s' = true /\ App.showConsentModal s' = true.
Proof.
  intros s r.
  exact (App_late_talk_reopens_consent s r r eq_refl).
Defined.

(* ================================================================== *)
(** ** The location is resolved once *)

Lemma located_refl s : located s s.
Proof. now intros H. Qed.

Lemma located_trans a b c : located a b -> located b c -> located a c.
Proof.
  intros H K Ha. destruct (H Ha) as [H1 H2]. destruct (K H1) as [K1 K2].
  split; congruence.
Qed.

Ltac located_leaf :=
  unfold located, lookup_settled; cbn; intros;
  auto using forallb_remove;
  match goal with
  | |- context [if ?b then _ else _] => destruct b; cbn; auto
  end.

Lemma resume_located (k : cont) (c : completion) (m : M unit) :
  is_location k = false -> resume k c = Some m -> keeps located m.
Proof.
  pose proof located_refl; pose proof located_trans.
  destruct k, c; cbn; try discriminate; intros _ [= <-]; frame located_leaf.
Qed.

Lemma handler_located (ev : event) (st : state) (m : M unit) :
  lookup_settled st = true ->
  handler ev st = Some m -> keeps located m.
Proof.
  pose proof located_refl; pose proof located_trans.
  intros Hi. destruct ev; cbn.
  - destruct (interval st); [|discriminate]. intros [= <-]. frame located_leaf.
  - destruct (lookup id (timeouts st)); [|discriminate].
    intros [= <-]. frame located_leaf.
  - destruct (isCallActive st); [|discriminate]. intros [= <-]. frame located_leaf.
  - destruct (isCallActive st); [|discriminate]. intros [= <-]. frame located_leaf.
  - intros [= <-]. frame located_leaf.
  - intros [= <-]. frame located_leaf.
  - destruct (lookup id (tasks st)) as [k|] eqn:Hk; [|discriminate].
    destruct (resume k c) as [m'|] eqn:Hr; [|discriminate].
    intros [= <-].
    pose proof (forallb_lookup _ _ _ _ Hi Hk) as Hf; cbn in Hf.
    apply negb_true_iff in Hf.
    apply (keeps_bind located located_trans).
    + apply keeps_modify. intro; located_leaf.
    + intros _. eapply resume_located; eauto.
  - destruct (mediaRecorderRef st) as [[| |]|]; try discriminate;
      intros [= <-]; frame located_leaf.
Qed.

Lemma run_located (evs : list event) (st : state) :
  lookup_settled st = true ->
  lookup_settled (run evs st) = true /\ ipLocation (run evs st) = ipLocation st.
Proof.
  revert st. induction evs as [|ev evs IH]; intros st Hi; [now split|].
  change (run (ev :: evs) st) with (run evs (step ev st)).
  assert (Hp : located st (step ev st)).
  { apply (step_keeps located located_refl located_trans).
    - intros; located_leaf.
    - intros m Hm. eapply handler_located; eauto. }
  destruct (Hp Hi) as [H1 H2]. destruct (IH _ H1) as [K1 K2].
  split; congruence.
Qed.

Lemma same_tasks_refl s : same_tasks s s.
Proof. reflexivity. Qed.

Lemma same_tasks_trans a b c : same_tasks a b -> same_tasks b c -> same_tasks a c.
Proof. unfold same_tasks; congruence. Qed.

Ltac same_tasks_leaf :=
  unfold same_tasks; cbn; auto;
  match goal with
  | |- context [if ?b then _ else _] => destruct b; cbn; auto
  end.

(** The continuation of the remote lookup suspends nothing. *)
Lemma location_resume_same_tasks (r : fetch_result) :
  keeps same_tasks (location_resume r).
Proof.
  pose proof same_tasks_refl; pose proof same_tasks_trans.
  frame same_tasks_leaf.
Qed.

(** X18.  The location is resolved once per mount.  Once the lookup issued
    at mount has settled, or at once when the cache supplied the text, no
    later event (poll, upload, recorder, button) changes the location
    shown, and no further lookup is ever pending. *)
Theorem location_is_resolved_once
    (JSON_parse : string -> option jsval) (raw : option string)
    (r : fetch_result) (evs : list event) :
  let resolved := step (Settle 0 (Fetched r)) (mount JSON_parse raw) in
  ipLocation (run evs resolved) = ipLocation resolved
  /\ lookup_settled (run evs resolved) = true.
Proof.
  intros resolved.
  assert (Hs : lookup_settled resolved = true).
  { subst resolved.
    destruct (mount_cache_or_lookup JSON_parse raw) as [-> | (text & _ & _ & Ht)].
    - rewrite (settle_step (mount JSON_parse None) 0 KLocation (Fetched r) _
                 eq_refl eq_refl).
      pose proof (resume_safe KLocation (Fetched r) _ eq_refl
                    (with_tasks (remove 0 (tasks (mount JSON_parse None)))
                       (mount JSON_parse None))) as [a Ha].
      pose proof (location_resume_same_tasks r
                    (with_tasks (remove 0 (tasks (mount JSON_parse None)))
                       (mount JSON_parse None))) as Hk.
      cbn [resume] in Ha.
      destruct (location_resume r _) as [res s]. cbn in Ha, Hk. subst res.
      unfold report, lookup_settled. rewrite Hk. reflexivity.
    - unfold step, handler, lookup_settled. rewrite Ht. cbn. now rewrite Ht. }
  destruct (run_located evs resolved Hs) as [H1 H2]. auto.
Qed.
